(** * git-bump: version resolution and tag publication

    A shallow embedding of [main.go] (package [main] of git-bump) together
    with the parts of its dependencies that the program's behaviour rests
    on: [github.com/Masterminds/semver/v3] (parsing, ordering and bumping of
    versions), [sort.Sort] of the Go standard library, and the repository,
    identity and prompt collaborators, which are taken as an explicit
    environment. *)

From Stdlib Require Import ZArith List String Ascii Bool Lia Sorted Permutation.
Import ListNotations.

Local Open Scope string_scope.
Local Open Scope Z_scope.

(** * Go primitives *)

(** Go's [error] values are represented by their message. *)
Definition error := string.

(** [uint64] arithmetic wraps around. *)
Definition maxUint64 : Z := 2 ^ 64 - 1.

Definition wrap64 (z : Z) : Z := z mod 2 ^ 64.

Definition byteOf (c : ascii) : Z := Z.of_N (N_of_ascii c).

Definition isDigit (c : ascii) : bool :=
  (48 <=? byteOf c) && (byteOf c <=? 57).

Definition isAlpha (c : ascii) : bool :=
  ((65 <=? byteOf c) && (byteOf c <=? 90)) ||
  ((97 <=? byteOf c) && (byteOf c <=? 122)).

(** [strings.HasPrefix] *)
Definition HasPrefix (s p : string) : bool := String.prefix p s.

(** The digit loop of [strconv.ParseUint(s, 10, 64)]: [n = n*10 + d]. *)
Fixpoint digitsValue (acc : Z) (s : string) : option Z :=
  match s with
  | EmptyString => Some acc
  | String c r =>
      if isDigit c then digitsValue (10 * acc + (byteOf c - 48)) r else None
  end.

(** [strconv.ParseUint(s, 10, 64)]: no sign, at least one digit, and the
    value has to fit 64 bits. *)
Definition ParseUint (s : string) : option Z :=
  match s with
  | EmptyString => None
  | _ =>
      match digitsValue 0 s with
      | Some n => if n <=? maxUint64 then Some n else None
      | None => None
      end
  end.

(** [%d] of an unsigned value: the decimal digits, most significant first. *)
Fixpoint formatDigits (fuel : nat) (n : Z) (acc : string) : string :=
  let acc' := String (ascii_of_N (Z.to_N (48 + n mod 10))) acc in
  match fuel with
  | O => acc'
  | S fuel' => if n / 10 =? 0 then acc' else formatDigits fuel' (n / 10) acc'
  end.

Definition FormatUint (n : Z) : string := formatDigits 20 n EmptyString.

(** The double quote, and [%q] on text that needs no escaping (tag names
    and version texts are printable ASCII without quotes or backslashes). *)
Definition dquote : string := String (ascii_of_nat 34) EmptyString.

Definition quote (s : string) : string := dquote ++ s ++ dquote.

Definition newline : string := String (ascii_of_nat 10) EmptyString.

(** [strings.Split(s, ".")] *)
Fixpoint splitDot (s : string) : list string :=
  match s with
  | EmptyString => [EmptyString]
  | String c r =>
      if Ascii.eqb c "." then EmptyString :: splitDot r
      else match splitDot r with
           | h :: t => String c h :: t
           | [] => [String c EmptyString]
           end
  end.

Fixpoint span (p : ascii -> bool) (s : string) : string * string :=
  match s with
  | EmptyString => (EmptyString, EmptyString)
  | String c r =>
      if p c then let '(a, b) := span p r in (String c a, b)
      else (EmptyString, s)
  end.

Fixpoint allChars (p : ascii -> bool) (s : string) : bool :=
  match s with
  | EmptyString => true
  | String c r => p c && allChars p r
  end.

(** * The semver library

    The functions of [version.go] and [collection.go] that [main.go] calls,
    with the helpers they rest on. *)

Module semver.

(** [type Version struct]: three [uint64] segments, the pre-release and
    metadata texts, and the text the version was parsed from. *)
Record Version : Type := mkVersion {
  major : Z;
  minor : Z;
  patch : Z;
  pre : string;
  metadata : string;
  original : string
}.

(** Characters of a pre-release or metadata identifier: [[0-9A-Za-z-]]. *)
Definition isAllowed (c : ascii) : bool :=
  isDigit c || isAlpha c || Ascii.eqb c "-".

(** A number group [[0-9]+] at the head of [s]. *)
Definition matchNumber (s : string) : option (string * string) :=
  match span isDigit s with
  | (EmptyString, _) => None
  | (d, r) => Some (d, r)
  end.

(** An optional group [(\.[0-9]+)?]: the match keeps its dot. *)
Definition matchDotNumber (s : string) : string * string :=
  match s with
  | String c r =>
      if Ascii.eqb c "." then
        match matchNumber r with
        | Some (d, r') => (String c d, r')
        | None => (EmptyString, s)
        end
      else (EmptyString, s)
  | EmptyString => (EmptyString, s)
  end.

(** [[0-9A-Za-z-]+(\.[0-9A-Za-z-]+)*]: dot-separated, none empty. *)
Definition isIdentifiers (s : string) : bool :=
  forallb (fun p => negb (String.eqb p EmptyString) && allChars isAllowed p)
          (splitDot s).

(** An optional group [(<mark>(idents))?] introduced by [mark]; the second
    component is the inner submatch. *)
Definition matchMarked (mark : ascii) (s : string) : string * string :=
  match s with
  | String c r =>
      if Ascii.eqb c mark then
        let '(body, rest) :=
          span (fun x => isAllowed x || Ascii.eqb x ".") r in
        if isIdentifiers body then (body, rest) else (EmptyString, s)
      else (EmptyString, s)
  | EmptyString => (EmptyString, s)
  end.

(** [versionRegex.FindStringSubmatch]: the anchored expression
    [^v?([0-9]+)(\.[0-9]+)?(\.[0-9]+)?(-(idents))?(\+(idents))?$],
    giving the submatches 1, 2, 3, 5 and 8. *)
Definition FindStringSubmatch (v : string)
  : option (string * string * string * string * string) :=
  let s0 := match v with
            | String c r => if Ascii.eqb c "v" then r else v
            | EmptyString => v
            end in
  match matchNumber s0 with
  | None => None
  | Some (m1, r1) =>
      let '(m2, r2) := matchDotNumber r1 in
      let '(m3, r3) := matchDotNumber r2 in
      let '(m5, r5) := matchMarked "-" r3 in
      let '(m8, r8) := matchMarked "+" r5 in
      match r8 with
      | EmptyString => Some (m1, m2, m3, m5, m8)
      | _ => None
      end
  end.

(** [strings.TrimPrefix(m, ".")] *)
Definition trimDot (m : string) : string :=
  match m with
  | String c r => if Ascii.eqb c "." then r else m
  | EmptyString => m
  end.

Definition leadingZero (p : string) : bool :=
  match p with
  | String c (String _ _) => Ascii.eqb c "0"
  | _ => false
  end.

(** [validatePrerelease]: a numeric identifier has no leading zero, any
    other identifier holds allowed characters only. *)
Definition validatePrerelease (p : string) : bool :=
  forallb (fun e => if allChars isDigit e then negb (leadingZero e)
                    else allChars isAllowed e)
          (splitDot p).

(** [validateMetadata] *)
Definition validateMetadata (m : string) : bool :=
  forallb (allChars isAllowed) (splitDot m).

(** [NewVersion]: [None] stands for the returned error. *)
Definition NewVersion (v : string) : option Version :=
  match FindStringSubmatch v with
  | None => None
  | Some (m1, m2, m3, m5, m8) =>
      match ParseUint m1 with
      | None => None
      | Some ma =>
          match (if String.eqb m2 "" then Some 0 else ParseUint (trimDot m2)) with
          | None => None
          | Some mi =>
              match (if String.eqb m3 "" then Some 0 else ParseUint (trimDot m3)) with
              | None => None
              | Some pa =>
                  if negb (String.eqb m5 "") && negb (validatePrerelease m5)
                  then None
                  else if negb (String.eqb m8 "") && negb (validateMetadata m8)
                  then None
                  else Some (mkVersion ma mi pa m5 m8 v)
              end
          end
      end
  end.

(** [Version.String]: [major.minor.patch], then [-pre] and [+metadata]
    when present. *)
Definition Version_String (v : Version) : string :=
  FormatUint (major v) ++ "." ++ FormatUint (minor v) ++ "." ++
  FormatUint (patch v) ++
  (if String.eqb (pre v) "" then "" else "-" ++ pre v) ++
  (if String.eqb (metadata v) "" then "" else "+" ++ metadata v).

(** [Version.Original] *)
Definition Original (v : Version) : string := original v.

(** [originalVPrefix]: the text [v] when the original starts with it. *)
Definition originalVPrefix (v : Version) : string :=
  match original v with
  | String c _ => if Ascii.eqb c "v" then "v" else ""
  | EmptyString => ""
  end.

Definition withOriginal (v : Version) (vNext : Version) : Version :=
  mkVersion (major vNext) (minor vNext) (patch vNext) (pre vNext)
            (metadata vNext) (originalVPrefix v ++ "" ++ Version_String vNext).

(** [IncPatch]: a pre-release is lower than its release, so bumping the
    patch of a pre-release only strips the pre-release; otherwise the patch
    segment is incremented. Metadata is unset either way. *)
Definition IncPatch (v : Version) : Version :=
  if negb (String.eqb (pre v) "") then
    withOriginal v (mkVersion (major v) (minor v) (patch v) "" "" (original v))
  else
    withOriginal v
      (mkVersion (major v) (minor v) (wrap64 (patch v + 1)) "" "" (original v)).

(** [IncMinor] *)
Definition IncMinor (v : Version) : Version :=
  withOriginal v
    (mkVersion (major v) (wrap64 (minor v + 1)) 0 "" "" (original v)).

(** [IncMajor] *)
Definition IncMajor (v : Version) : Version :=
  withOriginal v
    (mkVersion (wrap64 (major v + 1)) 0 0 "" "" (original v)).

(** [compareSegment] *)
Definition compareSegment (v o : Z) : Z :=
  if v <? o then -1 else if o <? v then 1 else 0.

(** [comparePrePart]: the empty part is lowest, numbers are below texts,
    numbers compare by value and texts bytewise. *)
Definition comparePrePart (s o : string) : Z :=
  if String.eqb s o then 0
  else if String.eqb s "" then -1
  else if String.eqb o "" then 1
  else
    match ParseUint o, ParseUint s with
    | None, None =>
        match String.compare s o with Gt => 1 | _ => -1 end
    | None, Some _ => -1
    | Some _, None => 1
    | Some oi, Some si => if oi <? si then 1 else -1
    end.

(** The loop of [comparePrerelease] over the longer of the two part lists,
    a missing part being read as the empty text. *)
Fixpoint comparePreLoop (l : nat) (sparts oparts : list string) : Z :=
  match l with
  | O => 0
  | S l' =>
      let d := comparePrePart (hd "" sparts) (hd "" oparts) in
      if d =? 0 then comparePreLoop l' (tl sparts) (tl oparts) else d
  end.

Definition comparePrerelease (v o : string) : Z :=
  let sparts := splitDot v in
  let oparts := splitDot o in
  comparePreLoop (Nat.max (List.length sparts) (List.length oparts))
                 sparts oparts.

(** [Version.Compare]: -1, 0 or 1. *)
Definition Compare (v o : Version) : Z :=
  let d := compareSegment (major v) (major o) in
  if negb (d =? 0) then d else
  let d := compareSegment (minor v) (minor o) in
  if negb (d =? 0) then d else
  let d := compareSegment (patch v) (patch o) in
  if negb (d =? 0) then d else
  let ps := pre v in
  let po := pre o in
  if String.eqb ps "" && String.eqb po "" then 0
  else if String.eqb ps "" then 1
  else if String.eqb po "" then -1
  else comparePrerelease ps po.

(** [Version.LessThan] *)
Definition LessThan (v o : Version) : bool := Compare v o <? 0.

End semver.

Import semver.

(** * The types of [main.go] and its collaborators *)

(** [const Prefix string = "v"] *)
Definition Prefix : string := "v".

(** [type Spec int] with its three constants. *)
Inductive Spec : Type := Major | Minor | Patch.

(** [Spec.String] *)
Definition Spec_String (c : Spec) : string :=
  match c with
  | Major => "major"
  | Minor => "minor"
  | Patch => "patch"
  end.

(** [type Option struct] *)
Record Option : Type := mkOption {
  Option_Major : bool;
  Option_Minor : bool;
  Option_Patch : bool;
  Option_Quiet : bool
}.

(** The [io.Writer] values the program uses. *)
Inductive Writer : Type := os_Stdout | os_Stderr | ioutil_Discard.

(** [type CLI struct]; [Repo] holds the path of the opened repository. *)
Record CLI : Type := mkCLI {
  CLI_Option : Option;
  Stdout : Writer;
  Stderr : Writer;
  Repo : option string
}.

(** What the program asks of its collaborators, in order. *)
Inductive Event : Type :=
| EPrompt (label : string) (items : list Spec)
| ECreateTag (name hash message : string)
| EPush (remote refspec : string).

(** The process streams, the tag references of the local repository (the
    short names of the references under [refs/tags], for which [IsTag]
    holds, in the order the iterator yields them) and of the remote, and
    the requests made so far. *)
Record World : Type := mkWorld {
  os_stdout : string;
  os_stderr : string;
  repo_tags : list string;
  remote_tags : list string;
  trace : list Event
}.

Record Commit : Type := mkCommit {
  Commit_Message : string;
  Committer_When : Z
}.

(** Outcomes of the calls that leave the program. [flags_ParseArgs] is the
    flag parser; [git_PlainOpen] opens the working directory; [Repo_Tags]
    is the error, if any, of enumerating the tag references; [Repo_Head]
    and [Repo_CommitObject] give the HEAD hash and its commit;
    [gitconfig_User] and [gitconfig_Email] the configured identity;
    [createTag_fault] is a failure of [CreateTag] other than an existing
    reference; [Repo_Push] is the result of the push and [Push_progress]
    what the transport reports meanwhile; [promptui_Run] is the index and
    the error that the selection returns for a label and a menu. *)
Record Env : Type := mkEnv {
  flags_ParseArgs : list string -> error + (Option * list string);
  git_PlainOpen : string -> option error;
  Repo_Tags : option error;
  Repo_Head : error + string;
  Repo_CommitObject : string -> error + Commit;
  gitconfig_User : error + string;
  gitconfig_Email : error + string;
  createTag_fault : string -> option error;
  Repo_Push : string -> option error;
  Push_progress : string;
  promptui_Run : string -> list Spec -> nat * option error
}.

(** * Calls: state passing with panics *)

(** A Go call either returns or panics. *)
Inductive res (A : Type) : Type :=
| Done (a : A)
| Panic (msg : string).
Arguments Done {A} a.
Arguments Panic {A} msg.

Definition M (A : Type) : Type := World -> res A * World.

Definition ret {A : Type} (a : A) : M A := fun w => (Done a, w).

Definition bind {A B : Type} (m : M A) (f : A -> M B) : M B :=
  fun w => match m w with
           | (Done a, w') => f a w'
           | (Panic msg, w') => (Panic msg, w')
           end.

Definition panic {A : Type} (msg : string) : M A := fun w => (Panic msg, w).

Notation "x <- m ;; k" := (bind m (fun x => k))
  (at level 61, m at next level, right associativity).
Notation "m ;;; k" := (bind m (fun _ => k))
  (at level 61, right associativity).

Definition nilDeref : string :=
  "runtime error: invalid memory address or nil pointer dereference".
Definition indexRange : string := "runtime error: index out of range".

(** Lifting a pure call that may panic. *)
Definition liftRes {A : Type} (r : res A) : M A := fun w => (r, w).

(** What [w] becomes when [text] goes through the writer [out]. *)
Definition written (out : Writer) (text : string) (w : World) : World :=
  match out with
  | os_Stdout => mkWorld (os_stdout w ++ text) (os_stderr w) (repo_tags w)
                         (remote_tags w) (trace w)
  | os_Stderr => mkWorld (os_stdout w) (os_stderr w ++ text) (repo_tags w)
                         (remote_tags w) (trace w)
  | ioutil_Discard => w
  end.

(** The world after a request [e] was recorded. *)
Definition logged (e : Event) (w : World) : World :=
  mkWorld (os_stdout w) (os_stderr w) (repo_tags w) (remote_tags w)
          (trace w ++ [e]).

(** [fmt.Fprint] and [fmt.Fprintf] on the three writers. *)
Definition Fprint (out : Writer) (s : string) : M unit :=
  fun w => (Done tt, written out s w).

(** [fmt.Fprintln] *)
Definition Fprintln (out : Writer) (s : string) : M unit :=
  Fprint out (s ++ newline).

Definition emit (e : Event) : M unit := fun w => (Done tt, logged e w).

Definition getTags : M (list string) := fun w => (Done (repo_tags w), w).

(** Dereferencing a version pointer. *)
Definition deref (p : option Version) : res Version :=
  match p with
  | Some v => Done v
  | None => Panic nilDeref
  end.

(** * Sorting a [semver.Collection] *)

(** [Collection.Less(i, j)] is [c[i].LessThan(c[j])]; both pointers are
    dereferenced. *)
Definition Collection_Less (a b : option Version) : res bool :=
  match a, b with
  | Some v, Some o => Done (LessThan v o)
  | _, _ => Panic nilDeref
  end.

(** The inner loop of the insertion sort behind [sort.Sort]: the element
    [x] moves left while it is [Less] than its left neighbour. [left] is
    the sorted part, nearest neighbour first. *)
Fixpoint sink (x : option Version) (left : list (option Version))
  : res (list (option Version)) :=
  match left with
  | [] => Done [x]
  | y :: left' =>
      match Collection_Less x y with
      | Panic msg => Panic msg
      | Done true =>
          match sink x left' with
          | Done l => Done (y :: l)
          | Panic msg => Panic msg
          end
      | Done false => Done (x :: left)
      end
  end.

Fixpoint insertionSort (left todo : list (option Version))
  : res (list (option Version)) :=
  match todo with
  | [] => Done (rev left)
  | x :: todo' =>
      match sink x left with
      | Done left' => insertionSort left' todo'
      | Panic msg => Panic msg
      end
  end.

(** [sort.Sort(semver.Collection(vs))], by the insertion sort that
    [sort.Sort] runs on short slices. *)
Definition sort_Sort (vs : list (option Version))
  : res (list (option Version)) :=
  match vs with
  | [] => Done []
  | x :: rest => insertionSort [x] rest
  end.

(** [vs[len(vs)-1]] *)
Definition lastElem (vs : list (option Version)) : res (option Version) :=
  match rev vs with
  | [] => Panic indexRange
  | x :: _ => Done x
  end.

(** * The functions of [main.go] *)

(** The reference specification of the single tag that is pushed. *)
Definition refspecOf (tag : string) : string :=
  "refs/tags/" ++ tag ++ ":refs/tags/" ++ tag.

(** The line written once the tag exists. *)
Definition bumpLine (tag : string) : string :=
  "Bump version to " ++ quote tag ++ "." ++ newline.

(** The line written for the push. *)
Definition pushedLine : string := "Pushed to origin." ++ newline.

(** The line of the top-level error report. *)
Definition errorLine (e : error) : string := "[ERROR] " ++ e ++ newline.

Section Program.

Variable env : Env.

(** The listing loop of [currentVersion]: every entry is dereferenced for
    its original text, the last one is marked. *)
Fixpoint printTags (out : Writer) (vs : list (option Version)) : M unit :=
  match vs with
  | [] => ret tt
  | p :: rest =>
      v <- liftRes (deref p) ;;
      Fprintln out
        (match rest with
         | [] => "- " ++ Original v ++ " (current version)"
         | _ => "- " ++ Original v
         end) ;;;
      printTags out rest
  end.

(** [CLI.currentVersion], returning a version pointer and an error. *)
Definition currentVersion (c : CLI) : M (error + option Version) :=
  match Repo_Tags env with
  | Some err => ret (inl err)
  | None =>
      tags <- getTags ;;
      (* vs is made with len(tags) nil slots; a tag that does not parse
         leaves its slot nil *)
      let vs := map NewVersion tags in
      vs <- liftRes (sort_Sort vs) ;;
      current <- liftRes (lastElem vs) ;;
      Fprintln (Stdout c) "Tags:" ;;;
      printTags (Stdout c) vs ;;;
      Fprintln (Stdout c) "" ;;;
      ret (inr current)
  end.

(** [CLI.prompt(label, items)], returning a [Spec] and an error. *)
Definition prompt (c : CLI) (label : string) (items : list Spec)
  : M (Spec * option error) :=
  emit (EPrompt label items) ;;;
  let '(i, err) := promptui_Run env label items in
  match nth_error items i with
  | Some s => ret (s, err)
  | None => panic indexRange
  end.

(** The flags of [Option] as a list, in the order the code appends. *)
Definition declaredSpecs (o : Option) : list Spec :=
  (if Option_Major o then [Major] else []) ++
  (if Option_Minor o then [Minor] else []) ++
  (if Option_Patch o then [Patch] else []).

(** The closing [switch spec] of [nextVersion]; its [default] branch
    answers values other than the three constants, which no path builds. *)
Definition applySpec (spec : Spec) (current : Version) : Version :=
  match spec with
  | Major => IncMajor current
  | Minor => IncMinor current
  | Patch => IncPatch current
  end.

Definition selectLabel (current : Version) : string :=
  "Current tag is " ++ quote (Original current) ++ ". Next is?".

Definition selectFailed (err : error) : error :=
  err ++ ": failed to select valid semver spec".

(** [CLI.nextVersion(current)], returning a version and an error. *)
Definition nextVersion (c : CLI) (current : option Version)
  : M (error + Version) :=
  let specs := declaredSpecs (CLI_Option c) in
  cur <- liftRes (deref current) ;;
  let label := selectLabel cur in
  match specs with
  | [] =>
      r <- prompt c label [Patch; Minor; Major] ;;
      match r with
      | (_, Some err) => ret (inl (selectFailed err))
      | (spec, None) => ret (inr (applySpec spec cur))
      end
  | [spec] => ret (inr (applySpec spec cur))
  | _ =>
      r <- prompt c label specs ;;
      match r with
      | (_, Some err) => ret (inl (selectFailed err))
      | (spec, None) => ret (inr (applySpec spec cur))
      end
  end.

(** [Repo.CreateTag]: refused when the reference exists already. *)
Definition CreateTag (tag hash message : string) : M (option error) :=
  emit (ECreateTag tag hash message) ;;;
  fun w =>
    if existsb (String.eqb tag) (repo_tags w) then
      (Done (Some "tag already exists"), w)
    else
      match createTag_fault env tag with
      | Some err => (Done (Some err), w)
      | None =>
          (Done None, mkWorld (os_stdout w) (os_stderr w)
                              (repo_tags w ++ [tag]) (remote_tags w) (trace w))
      end.

(** [Repo.Push] of one tag to [origin], progress going to [out]. *)
Definition Push (out : Writer) (tag : string) : M (option error) :=
  emit (EPush "origin" (refspecOf tag)) ;;;
  Fprint out (Push_progress env) ;;;
  match Repo_Push env tag with
  | Some err => ret (Some err)
  | None =>
      fun w => (Done None, mkWorld (os_stdout w) (os_stderr w) (repo_tags w)
                                   (remote_tags w ++ [tag]) (trace w))
  end.

(** [CLI.PushTag(tag)] *)
Definition PushTag (c : CLI) (tag : string) : M (option error) :=
  match Repo_Head env with
  | inl err => ret (Some err)
  | inr head =>
      match Repo_CommitObject env head with
      | inl err => ret (Some err)
      | inr commit =>
          match gitconfig_User env with
          | inl err => ret (Some err)
          | inr user =>
              match gitconfig_Email env with
              | inl err => ret (Some err)
              | inr email =>
                  err <- CreateTag tag head (Commit_Message commit) ;;
                  match err with
                  | Some e => ret (Some e)
                  | None =>
                      Fprint (Stdout c) (bumpLine tag) ;;;
                      (* the deferred Fprintf of the pushed line runs once the
                         operand of return is evaluated *)
                      r <- Push (Stdout c) tag ;;
                      Fprint (Stdout c) pushedLine ;;;
                      ret r
                  end
              end
          end
      end
  end.

(** The tag name computed in [Run]: the text of [next], after [Prefix]
    when the original text of [current] starts with it. *)
Definition tagName (current next : Version) : string :=
  let tag := Version_String next in
  if HasPrefix (Original current) Prefix then Prefix ++ Version_String next
  else tag.

(** [CLI.Run(args)] *)
Definition Run (c : CLI) (args : list string) : M (option error) :=
  let c := if Option_Quiet (CLI_Option c)
           then mkCLI (CLI_Option c) ioutil_Discard ioutil_Discard (Repo c)
           else c in
  let wd := match args with
            | [] => "."
            | a :: _ => a
            end in
  match git_PlainOpen env wd with
  | Some err => ret (Some err)
  | None =>
      let c := mkCLI (CLI_Option c) (Stdout c) (Stderr c) (Some wd) in
      r <- currentVersion c ;;
      match r with
      | inl err => ret (Some err)
      | inr current =>
          r <- nextVersion c current ;;
          match r with
          | inl err => ret (Some err)
          | inr next =>
              cur <- liftRes (deref current) ;;
              PushTag c (tagName cur next)
          end
      end
  end.

(** [run(args)]: the exit code. *)
Definition run (args : list string) : M Z :=
  match flags_ParseArgs env args with
  | inl _ => ret 1
  | inr (opt, args) =>
      let cli := mkCLI opt os_Stdout os_Stderr None in
      r <- Run cli args ;;
      match r with
      | Some err =>
          Fprint os_Stderr (errorLine err) ;;;
          ret 1
      | None => ret 0
      end
  end.

End Program.

(** * Vocabulary of the statements *)

(** A three-way comparison that is antisymmetric and transitive on a
    domain [D]. *)
Definition comparator {A : Type} (D : A -> Prop) (c : A -> A -> Z) : Prop :=
  (forall x y, D x -> D y -> c x y = - c y x) /\
  (forall x y z, D x -> D y -> D z -> c x y <= 0 -> c y z <= 0 -> c x z <= 0).

(** A numeric pre-release identifier is written without a leading zero;
    [validatePrerelease] checks it. *)
Definition partOK (s : string) : Prop :=
  allChars isDigit s = true -> leadingZero s = false.

Definition preOK (p : string) : Prop := Forall partOK (splitDot p).

(** The closing part of [Compare]: a release is above its pre-releases. *)
Definition comparePre (ps po : string) : Z :=
  if String.eqb ps "" && String.eqb po "" then 0
  else if String.eqb ps "" then 1
  else if String.eqb po "" then -1
  else comparePrerelease ps po.

(** The versions the order is total on. *)
Definition versionOK (v : Version) : Prop := preOK (pre v).

Definition inUint64 (z : Z) : Prop := 0 <= z <= maxUint64.

Definition geV (a b : Version) : Prop := 0 <= Compare a b.

(** The two loops of the sort on slices without nil entries. *)
Fixpoint sinkV (x : Version) (left : list Version) : list Version :=
  match left with
  | [] => [x]
  | y :: left' => if LessThan x y then y :: sinkV x left' else x :: left
  end.

Fixpoint insertionSortV (left todo : list Version) : list Version :=
  match todo with
  | [] => left
  | x :: todo' => insertionSortV (sinkV x left) todo'
  end.

Inductive Stream : Type := StdoutStream | StderrStream.

Definition streamOf (s : Stream) (w : World) : string :=
  match s with
  | StdoutStream => os_stdout w
  | StderrStream => os_stderr w
  end.

Definition targets (out : Writer) (s : Stream) : bool :=
  match out, s with
  | os_Stdout, StdoutStream => true
  | os_Stderr, StderrStream => true
  | _, _ => false
  end.

Definition keeps {A : Type} (s : Stream) (m : M A) : Prop :=
  forall w r w', m w = (r, w') -> streamOf s w' = streamOf s w.

(** ** Concrete collaborators and versions for the examples *)

(** A repository with a readable HEAD and a configured identity; the flag
    parser yields [opt], the push yields [pushErr] and the terminal
    answers every menu with [answer]. *)
Definition sampleEnv (opt : Option) (pushErr : option error)
    (answer : nat * option error) : Env :=
  mkEnv (fun args => inr (opt, args))
        (fun _ => None)
        None
        (inr "4f2a9c1")
        (fun _ => inr (mkCommit "Release" 1580000000))
        (inr "alice")
        (inr "alice@example.com")
        (fun _ => None)
        (fun _ => pushErr)
        ""
        (fun _ _ => answer).

Definition noFlags : Option := mkOption false false false false.
Definition patchFlag : Option := mkOption false false true false.
Definition majorPatchFlags : Option := mkOption true false true false.

Definition worldWith (tags : list string) : World :=
  mkWorld "" "" tags [] [].

Definition sampleCLI (opt : Option) : CLI :=
  mkCLI opt os_Stdout os_Stderr (Some ".").

Definition v1_2_3 : Version := mkVersion 1 2 3 "" "" "v1.2.3".
Definition v1_2_3_beta : Version := mkVersion 1 2 3 "beta" "" "1.2.3-beta".
Definition vMaxMajor : Version :=
  mkVersion 18446744073709551615 0 0 "" "" "18446744073709551615.0.0".

(** ** Menus, bumps and requests *)

Definition flagSet (o : Option) (s : Spec) : bool :=
  match s with
  | Major => Option_Major o
  | Minor => Option_Minor o
  | Patch => Option_Patch o
  end.

(** The restricted menu as the specification words it: the declared kinds
    in the order Patch, Minor, Major. *)
Definition menuPatchFirst (o : Option) : list Spec :=
  filter (flagSet o) [Patch; Minor; Major].

(** The menus the terminal was asked to show. *)
Definition menusOf (t : list Event) : list (list Spec) :=
  flat_map (fun e => match e with
                     | EPrompt _ items => [items]
                     | _ => []
                     end) t.

Definition triple (v : Version) : Z * Z * Z := (major v, minor v, patch v).

(** The bump as the specification words it. *)
Definition statedTriple (k : Spec) (v : Version) : Z * Z * Z :=
  match k with
  | Major => (major v + 1, 0, 0)
  | Minor => (major v, minor v + 1, 0)
  | Patch => (major v, minor v, patch v + 1)
  end.

Definition segment (k : Spec) (v : Version) : Z :=
  match k with
  | Major => major v
  | Minor => minor v
  | Patch => patch v
  end.

(** Raising the segment of [k] by [d] in one step. *)
Definition incBy (d : Z) (k : Spec) (v : Version) : Version :=
  match k with
  | Major =>
      withOriginal v (mkVersion (wrap64 (major v + d)) 0 0 "" "" (original v))
  | Minor =>
      withOriginal v
        (mkVersion (major v) (wrap64 (minor v + d)) 0 "" "" (original v))
  | Patch =>
      withOriginal v
        (mkVersion (major v) (minor v) (wrap64 (patch v + d)) "" ""
                   (original v))
  end.

(** The working directory and the receiver as [Run] has them once the
    repository is open. *)
Definition workDir (args : list string) : string :=
  match args with
  | [] => "."
  | a :: _ => a
  end.

Definition cliInRun (c : CLI) (args : list string) : CLI :=
  let q := Option_Quiet (CLI_Option c) in
  mkCLI (CLI_Option c)
        (if q then ioutil_Discard else Stdout c)
        (if q then ioutil_Discard else Stderr c)
        (Some (workDir args)).

Definition isPush (e : Event) : bool :=
  match e with
  | EPush _ _ => true
  | _ => false
  end.

Definition pushesOf (t : list Event) : list Event := filter isPush t.

Definition quietPatch : Option := mkOption false false true true.

(** ** Relations between the world before and after a call *)

Definition respects {A : Type} (R : World -> World -> Prop) (m : M A) : Prop :=
  forall w r w', m w = (r, w') -> R w w'.

(** The tag references, local and remote, are as before. *)
Definition sameRepo (w w' : World) : Prop :=
  repo_tags w' = repo_tags w /\ remote_tags w' = remote_tags w.

(** Only the output streams may differ. *)
Definition readOnly (w w' : World) : Prop :=
  sameRepo w w' /\ trace w' = trace w.

(** No tag reference is removed or renamed; at most one tag, absent
    before, is added locally, and the remote receives nothing but that
    tag. *)
Definition tagsGrow (w w' : World) : Prop :=
  sameRepo w w' \/
  exists t, existsb (String.eqb t) (repo_tags w) = false /\
            repo_tags w' = (repo_tags w ++ [t])%list /\
            (remote_tags w' = remote_tags w \/
             remote_tags w' = (remote_tags w ++ [t])%list).

(** The world once the tag is created, once the push was tried, and once
    the remote has the tag. *)
Definition created (tag head message : string) (w : World) : World :=
  mkWorld (os_stdout w) (os_stderr w) (repo_tags w ++ [tag]) (remote_tags w)
          (trace w ++ [ECreateTag tag head message]).

Definition pushTried (env : Env) (out : Writer) (tag : string) (w : World)
  : World :=
  written out (Push_progress env)
    (logged (EPush "origin" (refspecOf tag)) (written out (bumpLine tag) w)).

Definition received (tag : string) (w : World) : World :=
  mkWorld (os_stdout w) (os_stderr w) (repo_tags w) (remote_tags w ++ [tag])
          (trace w).

(** The lines of the listing for a slice without nil entries. *)
Fixpoint listingLines (vs : list Version) : string :=
  match vs with
  | [] => ""
  | v :: rest =>
      (match rest with
       | [] => "- " ++ Original v ++ " (current version)"
       | _ => "- " ++ Original v
       end) ++ newline ++ listingLines rest
  end.

(** The menu that [nextVersion] offers when it has to ask. *)
Definition menuOf (o : Option) : list Spec :=
  match declaredSpecs o with
  | [] => [Patch; Minor; Major]
  | specs => specs
  end.

(** * Proofs *)

(** ** Parsing and printing, by example *)

Example parse_v123 :
  NewVersion "v1.2.3" = Some (mkVersion 1 2 3 "" "" "v1.2.3").
Proof. reflexivity. Qed.
Example parse_pre :
  NewVersion "1.2.3-beta.1+build.5"
  = Some (mkVersion 1 2 3 "beta.1" "build.5" "1.2.3-beta.1+build.5").
Proof. reflexivity. Qed.
Example parse_short : NewVersion "v2" = Some (mkVersion 2 0 0 "" "" "v2").
Proof. reflexivity. Qed.
Example parse_bad1 : NewVersion "release-1" = None.
Proof. reflexivity. Qed.
Example parse_bad2 : NewVersion "1.2.3.4" = None.
Proof. reflexivity. Qed.
Example parse_bad3 : NewVersion "1.2.3-" = None.
Proof. reflexivity. Qed.
Example parse_big : NewVersion "18446744073709551616.0.0" = None.
Proof. reflexivity. Qed.
(** The precedence chain of the semantic-versioning document. *)
Example precedence_chain :
  map (fun p => match NewVersion (fst p), NewVersion (snd p) with
                | Some a, Some b => Compare a b
                | _, _ => 2
                end)
      [("1.0.0-alpha", "1.0.0-alpha.1"); ("1.0.0-alpha.1", "1.0.0-alpha.beta");
       ("1.0.0-alpha.beta", "1.0.0-beta"); ("1.0.0-beta", "1.0.0-beta.2");
       ("1.0.0-beta.2", "1.0.0-beta.11"); ("1.0.0-beta.11", "1.0.0-rc.1");
       ("1.0.0-rc.1", "1.0.0"); ("1.0.0", "1.0.0+build"); ("2.0.0", "1.9.9")]
  = [-1; -1; -1; -1; -1; -1; -1; 0; 1].
Proof. reflexivity. Qed.

Example string_ex :
  Version_String (mkVersion 10 0 123 "rc.1" "x" "") = "10.0.123-rc.1+x".
Proof. reflexivity. Qed.

(** ** Bytes, digits and decimal texts *)

Lemma byteOf_inj (a b : ascii) : byteOf a = byteOf b -> a = b.
Proof.
  unfold byteOf. intros H. apply N2Z.inj in H.
  rewrite <- (ascii_N_embedding a), <- (ascii_N_embedding b). now rewrite H.
Qed.

Lemma isDigit_spec (c : ascii) : isDigit c = true <-> 48 <= byteOf c <= 57.
Proof.
  unfold isDigit. rewrite andb_true_iff, !Z.leb_le. tauto.
Qed.

Lemma byteOf_ascii_of_N (k : Z) :
  0 <= k < 256 -> byteOf (ascii_of_N (Z.to_N k)) = k.
Proof.
  intros H. unfold byteOf. rewrite N_ascii_embedding by lia. lia.
Qed.

Lemma digitChar_isDigit (n : Z) :
  isDigit (ascii_of_N (Z.to_N (48 + n mod 10))) = true.
Proof.
  apply isDigit_spec. pose proof (Z.mod_pos_bound n 10 ltac:(lia)).
  rewrite byteOf_ascii_of_N; lia.
Qed.

(** The text of a number is never empty and starts with a digit. *)
Lemma formatDigits_head (fuel : nat) : forall n acc,
  exists c r, formatDigits fuel n acc = String c r /\ isDigit c = true.
Proof.
  induction fuel as [|fuel IH]; intros n acc; cbn [formatDigits].
  - eexists _, _. split; [reflexivity|]. apply digitChar_isDigit.
  - destruct (n / 10 =? 0).
    + eexists _, _. split; [reflexivity|]. apply digitChar_isDigit.
    + apply IH.
Qed.

Lemma FormatUint_head (n : Z) :
  exists c r, FormatUint n = String c r /\ isDigit c = true.
Proof. apply formatDigits_head. Qed.

Lemma digit_not_v (c : ascii) : isDigit c = true -> Ascii.eqb c "v" = false.
Proof.
  intros H. apply isDigit_spec in H.
  destruct (Ascii.eqb_spec c "v") as [->|]; [|reflexivity].
  assert (E : byteOf "v" = 118) by reflexivity. lia.
Qed.

Lemma Version_String_head (v : Version) :
  exists c r, Version_String v = String c r /\ isDigit c = true.
Proof.
  unfold Version_String.
  destruct (FormatUint_head (major v)) as (c & r & -> & Hc).
  simpl. eauto.
Qed.

Lemma digitsValue_digits (s : string) : forall acc n,
  digitsValue acc s = Some n -> allChars isDigit s = true.
Proof.
  induction s as [|c r IH]; intros acc n H; simpl in *; [reflexivity|].
  destruct (isDigit c); [|discriminate]. simpl. eauto.
Qed.

Lemma ParseUint_digits (s : string) (n : Z) :
  ParseUint s = Some n -> allChars isDigit s = true.
Proof.
  unfold ParseUint. destruct s as [|c r]; [discriminate|].
  destruct (digitsValue 0 (String c r)) eqn:E; [|discriminate].
  intros _. eapply digitsValue_digits; eauto.
Qed.

(** The accumulator is shifted by the digits read after it. *)
Lemma digitsValue_shift (s : string) : forall acc n,
  digitsValue acc s = Some n ->
  exists v, digitsValue 0 s = Some v /\
            n = acc * 10 ^ Z.of_nat (String.length s) + v /\
            0 <= v < 10 ^ Z.of_nat (String.length s).
Proof.
  induction s as [|c r IH]; intros acc n H; cbn [digitsValue] in H.
  - inversion H; subst. exists 0. simpl. split; [reflexivity|]. lia.
  - cbn [digitsValue String.length]. destruct (isDigit c) eqn:Hd; [|discriminate].
    apply isDigit_spec in Hd.
    destruct (IH _ _ H) as (v & Hv & Hn & Hb).
    destruct (digitsValue (10 * 0 + (byteOf c - 48)) r) as [v'|] eqn:E.
    + destruct (IH _ _ E) as (v2 & Hv2 & Hn2 & Hb2).
      rewrite Hv in Hv2. inversion Hv2; subst v2.
      exists v'. split; [reflexivity|].
      rewrite Nat2Z.inj_succ, Z.pow_succ_r by lia.
      set (p := 10 ^ Z.of_nat (String.length r)) in *.
      set (d := byteOf c - 48) in *.
      assert (0 <= d * p <= 9 * p) by nia.
      split; [rewrite Hn, Hn2; ring | lia].
    + exfalso.
      assert (Hall : allChars isDigit r = true)
        by (eapply digitsValue_digits; eauto).
      clear - E Hall. revert E. generalize (10 * 0 + (byteOf c - 48)).
      induction r as [|d r IHr]; intros z E; simpl in *; [discriminate|].
      apply andb_true_iff in Hall as [H1 H2]. rewrite H1 in E. eauto.
Qed.

Lemma digitsValue_cons (c : ascii) (r : string) (n : Z) :
  digitsValue 0 (String c r) = Some n ->
  exists v, digitsValue 0 r = Some v /\
            n = (byteOf c - 48) * 10 ^ Z.of_nat (String.length r) + v /\
            0 <= v < 10 ^ Z.of_nat (String.length r) /\
            0 <= byteOf c - 48 <= 9.
Proof.
  simpl. destruct (isDigit c) eqn:Hd; [|discriminate].
  apply isDigit_spec in Hd. intros H.
  destruct (digitsValue_shift _ _ _ H) as (v & Hv & Hn & Hb).
  exists v. repeat split; try tauto; lia.
Qed.

(** Texts of the same length with the same value are the same text. *)
Lemma digitsValue_inj_len (s : string) : forall o n,
  String.length s = String.length o ->
  digitsValue 0 s = Some n -> digitsValue 0 o = Some n -> s = o.
Proof.
  induction s as [|c r IH]; intros [|d q] n Hl Hs Ho; simpl in Hl;
    try discriminate; [reflexivity|].
  apply digitsValue_cons in Hs as (v & Hv & Hn & Hb & Hc).
  apply digitsValue_cons in Ho as (u & Hu & Hm & Hb' & Hd).
  injection Hl as Hl. rewrite <- Hl in *.
  set (p := 10 ^ Z.of_nat (String.length r)) in *.
  assert (Hp : 0 < p) by (apply Z.pow_pos_nonneg; lia).
  set (a := byteOf c - 48) in *. set (b := byteOf d - 48) in *.
  assert (Hab : a = b).
  { destruct (Z.lt_trichotomy a b) as [L|[E|L]]; [exfalso|exact E|exfalso].
    - assert (1 * p <= (b - a) * p) by (apply Z.mul_le_mono_nonneg_r; lia).
      lia.
    - assert (1 * p <= (a - b) * p) by (apply Z.mul_le_mono_nonneg_r; lia).
      lia. }
  assert (Hvu : v = u) by (rewrite Hab in Hn; lia).
  subst a b.
  f_equal.
  - apply byteOf_inj. lia.
  - subst u. eapply IH; eauto.
Qed.

(** A text without a leading zero is at least [10^(length-1)]. *)
Lemma digitsValue_lower (s : string) (n : Z) :
  digitsValue 0 s = Some n -> leadingZero s = false ->
  (2 <= String.length s)%nat ->
  10 ^ (Z.of_nat (String.length s) - 1) <= n.
Proof.
  destruct s as [|c r]; cbn [String.length]; [lia|]. intros H Hz Hl.
  apply digitsValue_cons in H as (v & Hv & Hn & Hb & Hc).
  destruct r as [|d q]; [cbn [String.length] in Hl; lia|].
  cbn [leadingZero] in Hz.
  destruct (Ascii.eqb_spec c "0") as [->|Hne]; [discriminate|].
  assert (byteOf c <> 48).
  { intros E. apply Hne. apply byteOf_inj. rewrite E. reflexivity. }
  replace (Z.of_nat (S (String.length (String d q))) - 1)
    with (Z.of_nat (String.length (String d q))) by lia.
  set (p := 10 ^ Z.of_nat (String.length (String d q))) in *.
  assert (0 < p) by (apply Z.pow_pos_nonneg; lia).
  assert (1 * p <= (byteOf c - 48) * p)
    by (apply Z.mul_le_mono_nonneg_r; lia).
  lia.
Qed.

Lemma digitsValue_inj (s o : string) (n : Z) :
  digitsValue 0 s = Some n -> digitsValue 0 o = Some n ->
  leadingZero s = false -> leadingZero o = false ->
  s <> EmptyString -> o <> EmptyString -> s = o.
Proof.
  intros Hs Ho Zs Zo Ns No.
  assert (Hlen : forall a b m,
             digitsValue 0 a = Some m -> digitsValue 0 b = Some m ->
             leadingZero b = false -> a <> EmptyString ->
             (String.length a < String.length b)%nat -> False).
  { intros a b m Ha Hb Zb Na Hl.
    destruct (digitsValue_shift _ _ _ Ha) as (v & Hv & Hn & Hbd).
    rewrite Ha in Hv. inversion Hv; subst v.
    assert (1 <= String.length a)%nat by (destruct a; simpl; [congruence|lia]).
    pose proof (digitsValue_lower _ _ Hb Zb ltac:(lia)) as Hlow.
    assert (10 ^ Z.of_nat (String.length a)
            <= 10 ^ (Z.of_nat (String.length b) - 1))
      by (apply Z.pow_le_mono_r; lia).
    lia. }
  destruct (Nat.lt_trichotomy (String.length s) (String.length o))
    as [Hl|[Hl|Hl]].
  - exfalso. eapply (Hlen s o); eauto.
  - eapply digitsValue_inj_len; eauto.
  - exfalso. eapply (Hlen o s); eauto.
Qed.

(** ** Bytewise order of texts *)

Lemma string_compare_lt_trans (a : string) : forall b c,
  String.compare a b = Lt -> String.compare b c = Lt ->
  String.compare a c = Lt.
Proof.
  induction a as [|x a IH]; intros [|y b] [|z c]; simpl; try congruence.
  unfold Ascii.compare.
  destruct (N.compare_spec (N_of_ascii x) (N_of_ascii y)) as [E1|L1|G1];
    destruct (N.compare_spec (N_of_ascii y) (N_of_ascii z)) as [E2|L2|G2];
    try congruence; intros H1 H2.
  - rewrite E1, E2, N.compare_refl. eauto.
  - rewrite E1. now apply N.compare_lt_iff in L2 as ->.
  - rewrite <- E2. now apply N.compare_lt_iff in L1 as ->.
  - assert (L : (N_of_ascii x < N_of_ascii z)%N) by lia.
    now apply N.compare_lt_iff in L as ->.
Qed.

(** ** The order of versions *)

Section Comparators.

Context {A : Type} (D : A -> Prop) (c : A -> A -> Z).
Hypothesis Hc : comparator D c.

Lemma comparator_eq_trans (x y z : A) :
  D x -> D y -> D z -> c x y = 0 -> c y z = 0 -> c x z = 0.
Proof.
  destruct Hc as [Ha Ht]. intros Dx Dy Dz E1 E2.
  assert (c x z <= 0) by (apply (Ht x y z); auto; lia).
  assert (c z x <= 0).
  { apply (Ht z y x); auto; rewrite Ha by auto; lia. }
  rewrite (Ha x z) in * by auto. lia.
Qed.

Lemma comparator_lt_le (x y z : A) :
  D x -> D y -> D z -> c x y < 0 -> c y z <= 0 -> c x z < 0.
Proof.
  destruct Hc as [Ha Ht]. intros Dx Dy Dz L1 L2.
  assert (H1 : c x z <= 0) by (apply (Ht x y z); auto; lia).
  destruct (Z.eq_dec (c x z) 0) as [E|]; [|lia].
  assert (c y x <= 0).
  { apply (Ht y z x); auto. rewrite Ha by auto. lia. }
  rewrite (Ha y x) in * by auto. lia.
Qed.

Lemma comparator_le_lt (x y z : A) :
  D x -> D y -> D z -> c x y <= 0 -> c y z < 0 -> c x z < 0.
Proof.
  destruct Hc as [Ha Ht]. intros Dx Dy Dz L1 L2.
  assert (H1 : c x z <= 0) by (apply (Ht x y z); auto; lia).
  destruct (Z.eq_dec (c x z) 0) as [E|]; [|lia].
  assert (c z y <= 0).
  { apply (Ht z x y); auto. rewrite Ha by auto. lia. }
  rewrite (Ha z y) in * by auto. lia.
Qed.

Lemma comparator_weaken (D' : A -> Prop) :
  (forall x, D' x -> D x) -> comparator D' c.
Proof.
  destruct Hc as [Ha Ht]. intros Hw. split.
  - intros x y Dx Dy. apply Ha; auto.
  - intros x y z Dx Dy Dz. apply Ht; auto.
Qed.

End Comparators.

(** Comparing by a first key and, where that is equal, by a second. *)
Lemma comparator_lex {A B C : Type} (f : C -> A) (g : C -> B)
    (D1 : A -> Prop) (c1 : A -> A -> Z) (D2 : B -> Prop) (c2 : B -> B -> Z) :
  comparator D1 c1 -> comparator D2 c2 ->
  comparator (fun x => D1 (f x) /\ D2 (g x))
             (fun x y => if c1 (f x) (f y) =? 0 then c2 (g x) (g y)
                         else c1 (f x) (f y)).
Proof.
  intros H1 H2. split.
  - intros x y [Dx1 Dx2] [Dy1 Dy2].
    destruct H1 as [Ha1 _], H2 as [Ha2 _].
    rewrite (Ha1 (f x) (f y)) by auto.
    destruct (Z.eqb_spec (c1 (f y) (f x)) 0) as [E|E].
    + rewrite E. simpl. auto.
    + destruct (Z.eqb_spec (- c1 (f y) (f x)) 0); [lia|reflexivity].
  - intros x y z [Dx1 Dx2] [Dy1 Dy2] [Dz1 Dz2].
    destruct (Z.eqb_spec (c1 (f x) (f y)) 0) as [E1|E1];
      destruct (Z.eqb_spec (c1 (f y) (f z)) 0) as [E2|E2]; intros L1 L2.
    + rewrite (comparator_eq_trans D1 c1 H1 (f x) (f y) (f z)) by auto.
      simpl. destruct H2 as [_ Ht2]. apply (Ht2 (g x) (g y) (g z)); auto.
    + assert (c1 (f x) (f z) < 0)
        by (apply (comparator_le_lt D1 c1 H1 _ (f y)); auto; lia).
      destruct (Z.eqb_spec (c1 (f x) (f z)) 0); lia.
    + assert (c1 (f x) (f z) < 0)
        by (apply (comparator_lt_le D1 c1 H1 _ (f y)); auto; lia).
      destruct (Z.eqb_spec (c1 (f x) (f z)) 0); lia.
    + assert (c1 (f x) (f z) < 0)
        by (apply (comparator_lt_le D1 c1 H1 _ (f y)); auto; lia).
      destruct (Z.eqb_spec (c1 (f x) (f z)) 0); lia.
Qed.

Lemma compareSegment_comparator : comparator (fun _ => True) compareSegment.
Proof.
  split.
  - intros x y _ _. unfold compareSegment.
    destruct (Z.ltb_spec x y), (Z.ltb_spec y x); lia.
  - intros x y z _ _ _. unfold compareSegment.
    destruct (Z.ltb_spec x y), (Z.ltb_spec y x), (Z.ltb_spec y z),
      (Z.ltb_spec z y), (Z.ltb_spec x z), (Z.ltb_spec z x); lia.
Qed.

Lemma ParseUint_inj (s o : string) (n : Z) :
  partOK s -> partOK o ->
  ParseUint s = Some n -> ParseUint o = Some n -> s = o.
Proof.
  intros Ps Po Hs Ho.
  pose proof (ParseUint_digits _ _ Hs) as Ds.
  pose proof (ParseUint_digits _ _ Ho) as Do.
  unfold ParseUint in Hs, Ho.
  destruct s as [|c r]; [discriminate|].
  destruct o as [|d q]; [discriminate|].
  destruct (digitsValue 0 (String c r)) as [a|] eqn:Ea; [|discriminate].
  destruct (digitsValue 0 (String d q)) as [b|] eqn:Eb; [|discriminate].
  destruct (a <=? maxUint64); [|discriminate].
  destruct (b <=? maxUint64); [|discriminate].
  inversion Hs; inversion Ho; subst.
  eapply digitsValue_inj; eauto; discriminate.
Qed.

Lemma comparePrePart_refl (s : string) : comparePrePart s s = 0.
Proof. unfold comparePrePart. now rewrite String.eqb_refl. Qed.

Lemma comparePrePart_antisym (s o : string) :
  partOK s -> partOK o -> comparePrePart s o = - comparePrePart o s.
Proof.
  intros Ps Po. unfold comparePrePart.
  rewrite (String.eqb_sym o s).
  destruct (String.eqb_spec s o) as [->|Hne]; [reflexivity|].
  destruct (String.eqb_spec s "") as [->|Hs];
    destruct (String.eqb_spec o "") as [->|Ho]; try congruence; try reflexivity.
  destruct (ParseUint o) as [oi|] eqn:Eo, (ParseUint s) as [si|] eqn:Es;
    try reflexivity.
  - assert (oi <> si).
    { intros ->. apply Hne. eapply ParseUint_inj; eauto. }
    destruct (Z.ltb_spec oi si), (Z.ltb_spec si oi); lia.
  - rewrite (String.compare_antisym o s).
    destruct (String.compare s o) eqn:E; simpl; try reflexivity.
    apply String.compare_eq_iff in E. congruence.
Qed.

Lemma comparePrePart_trans (a b c : string) :
  partOK a -> partOK b -> partOK c ->
  comparePrePart a b <= 0 -> comparePrePart b c <= 0 ->
  comparePrePart a c <= 0.
Proof.
  intros Pa Pb Pc. unfold comparePrePart.
  destruct (String.eqb_spec a b) as [->|Hab]; [auto|].
  destruct (String.eqb_spec b c) as [->|Hbc].
  { intros H _. destruct (String.eqb_spec a c); [lia|exact H]. }
  destruct (String.eqb_spec a c) as [->|Hac]; [lia|].
  destruct (String.eqb_spec a "") as [->|Ha]; [lia|].
  destruct (String.eqb_spec b "") as [->|Hb]; [lia|].
  destruct (String.eqb_spec c "") as [->|Hc]; [lia|].
  destruct (ParseUint a) as [ai|] eqn:Ea, (ParseUint b) as [bi|] eqn:Eb,
    (ParseUint c) as [ci|] eqn:Ec; try lia.
  - destruct (Z.ltb_spec bi ai), (Z.ltb_spec ci bi), (Z.ltb_spec ci ai); lia.
  - destruct (String.compare a b) eqn:E1; try lia;
      destruct (String.compare b c) eqn:E2; try lia.
    + apply String.compare_eq_iff in E1. congruence.
    + apply String.compare_eq_iff in E1. congruence.
    + apply String.compare_eq_iff in E2. congruence.
    + now rewrite (string_compare_lt_trans a b c).
Qed.

Lemma comparePrePart_comparator : comparator partOK comparePrePart.
Proof.
  split.
  - intros. now apply comparePrePart_antisym.
  - intros x y z. apply comparePrePart_trans.
Qed.

Lemma partOK_empty : partOK "".
Proof. intros _. reflexivity. Qed.

Lemma comparePreLoop_comparator (l : nat) :
  comparator (Forall partOK) (comparePreLoop l).
Proof.
  induction l as [|l IH].
  - split; simpl; intros; lia.
  - cbn [comparePreLoop].
    eapply comparator_weaken.
    + apply (comparator_lex (hd "") (@tl string) partOK comparePrePart
               (Forall partOK) (comparePreLoop l));
        [apply comparePrePart_comparator|exact IH].
    + intros x Hx. destruct Hx; simpl; split; auto using partOK_empty.
Qed.

Lemma comparePreLoop_nil (k : nat) : comparePreLoop k [] [] = 0.
Proof.
  induction k as [|k IH]; cbn [comparePreLoop hd tl]; [reflexivity|].
  rewrite comparePrePart_refl. exact IH.
Qed.

(** Iterations past both lists compare empty parts and change nothing. *)
Lemma comparePreLoop_more (l : nat) : forall sp op k,
  (List.length sp <= l)%nat -> (List.length op <= l)%nat ->
  comparePreLoop (l + k) sp op = comparePreLoop l sp op.
Proof.
  induction l as [|l IH]; intros sp op k Hs Ho.
  - destruct sp; [|simpl in Hs; lia]. destruct op; [|simpl in Ho; lia].
    simpl. apply comparePreLoop_nil.
  - cbn [Nat.add comparePreLoop].
    rewrite IH; [reflexivity| |].
    + destruct sp; simpl in *; lia.
    + destruct op; simpl in *; lia.
Qed.

Lemma comparePreLoop_ge (sp op : list string) (l : nat) :
  (List.length sp <= l)%nat -> (List.length op <= l)%nat ->
  comparePreLoop l sp op
  = comparePreLoop (Nat.max (List.length sp) (List.length op)) sp op.
Proof.
  intros Hs Ho.
  replace l with (Nat.max (List.length sp) (List.length op)
                  + (l - Nat.max (List.length sp) (List.length op)))%nat
    at 1 by lia.
  apply comparePreLoop_more; lia.
Qed.

Lemma comparePrerelease_comparator : comparator preOK comparePrerelease.
Proof.
  split.
  - intros x y Dx Dy. unfold comparePrerelease.
    rewrite (Nat.max_comm (List.length (splitDot y))).
    apply (comparePreLoop_comparator _); assumption.
  - intros x y z Dx Dy Dz. unfold comparePrerelease.
    set (L := Nat.max (List.length (splitDot x))
                (Nat.max (List.length (splitDot y)) (List.length (splitDot z)))).
    rewrite <- (comparePreLoop_ge (splitDot x) (splitDot y) L) by lia.
    rewrite <- (comparePreLoop_ge (splitDot y) (splitDot z) L) by lia.
    rewrite <- (comparePreLoop_ge (splitDot x) (splitDot z) L) by lia.
    apply (comparePreLoop_comparator L); assumption.
Qed.

Lemma comparePre_comparator : comparator preOK comparePre.
Proof.
  pose proof comparePrerelease_comparator as [Ha Ht].
  split.
  - intros x y Dx Dy. unfold comparePre.
    destruct (String.eqb_spec x ""), (String.eqb_spec y ""); simpl;
      try reflexivity. now apply Ha.
  - intros x y z Dx Dy Dz. unfold comparePre.
    destruct (String.eqb_spec x ""), (String.eqb_spec y ""),
      (String.eqb_spec z ""); simpl; try lia.
    now apply Ht.
Qed.

Lemma Compare_lex (v o : Version) :
  Compare v o =
  (if compareSegment (major v) (major o) =? 0 then
     if compareSegment (minor v) (minor o) =? 0 then
       if compareSegment (patch v) (patch o) =? 0 then
         comparePre (pre v) (pre o)
       else compareSegment (patch v) (patch o)
     else compareSegment (minor v) (minor o)
   else compareSegment (major v) (major o)).
Proof.
  unfold Compare, comparePre.
  destruct (compareSegment (major v) (major o) =? 0); simpl; [|reflexivity].
  destruct (compareSegment (minor v) (minor o) =? 0); simpl; [|reflexivity].
  destruct (compareSegment (patch v) (patch o) =? 0); simpl; reflexivity.
Qed.

Lemma Compare_comparator : comparator versionOK Compare.
Proof.
  pose proof (comparator_lex patch pre _ _ _ _
                compareSegment_comparator comparePre_comparator) as H3.
  pose proof (comparator_lex minor (fun v => v) _ _ _ _
                compareSegment_comparator H3) as H2.
  pose proof (comparator_lex major (fun v => v) _ _ _ _
                compareSegment_comparator H2) as H1.
  cbv beta in H1.
  destruct H1 as [Ha Ht]. split.
  - intros x y Dx Dy. rewrite !Compare_lex. apply Ha; unfold versionOK in *; tauto.
  - intros x y z Dx Dy Dz. rewrite !Compare_lex.
    apply Ht; unfold versionOK in *; tauto.
Qed.

(** ** What [NewVersion] guarantees *)

Lemma validatePrerelease_preOK (p : string) :
  validatePrerelease p = true -> preOK p.
Proof.
  unfold validatePrerelease, preOK. rewrite forallb_forall, Forall_forall.
  intros H e He Hd. specialize (H e He). rewrite Hd in H.
  now apply negb_true_iff in H.
Qed.

Lemma preOK_empty : preOK "".
Proof. constructor; [apply partOK_empty|constructor]. Qed.

Lemma ParseUint_range (s : string) (n : Z) :
  ParseUint s = Some n -> 0 <= n <= maxUint64.
Proof.
  unfold ParseUint. destruct s as [|c r]; [discriminate|].
  destruct (digitsValue 0 (String c r)) as [a|] eqn:E; [|discriminate].
  destruct (digitsValue_shift _ _ _ E) as (v & Hv & Hn & Hb).
  destruct (Z.leb_spec a maxUint64); [|discriminate].
  intros Hq; inversion Hq; subst. lia.
Qed.

Lemma NewVersion_spec (t : string) (v : Version) :
  NewVersion t = Some v ->
  versionOK v /\ original v = t /\
  inUint64 (major v) /\ inUint64 (minor v) /\ inUint64 (patch v).
Proof.
  unfold NewVersion.
  destruct (FindStringSubmatch t) as [[[[[m1 m2] m3] m5] m8]|]; [|discriminate].
  destruct (ParseUint m1) as [ma|] eqn:E1; [|discriminate].
  destruct (if (m2 =? "")%string then Some 0 else ParseUint (trimDot m2))
    as [mi|] eqn:E2; [|discriminate].
  destruct (if (m3 =? "")%string then Some 0 else ParseUint (trimDot m3))
    as [pa|] eqn:E3; [|discriminate].
  destruct (negb (m5 =? "")%string && negb (validatePrerelease m5)) eqn:E5;
    [discriminate|].
  destruct (negb (m8 =? "")%string && negb (validateMetadata m8));
    [discriminate|].
  intros H; inversion H; subst; clear H. unfold versionOK; simpl.
  repeat split.
  - destruct (String.eqb_spec m5 "") as [->|]; [apply preOK_empty|].
    simpl in E5. apply negb_false_iff in E5.
    now apply validatePrerelease_preOK.
  - apply (ParseUint_range _ _ E1).
  - apply (ParseUint_range _ _ E1).
  - destruct (m2 =? "")%string; [inversion E2; subst; lia|].
    apply (ParseUint_range _ _ E2).
  - destruct (m2 =? "")%string; [inversion E2; subst; vm_compute; discriminate|].
    apply (ParseUint_range _ _ E2).
  - destruct (m3 =? "")%string; [inversion E3; subst; lia|].
    apply (ParseUint_range _ _ E3).
  - destruct (m3 =? "")%string; [inversion E3; subst; vm_compute; discriminate|].
    apply (ParseUint_range _ _ E3).
Qed.

(** When every tag parses, no slot of [vs] is nil. *)
Lemma map_NewVersion_all (tags : list string) :
  Forall (fun t => NewVersion t <> None) tags ->
  exists vs, map NewVersion tags = map Some vs /\
             Forall versionOK vs /\
             (forall v, In v vs <-> exists t, In t tags /\ NewVersion t = Some v).
Proof.
  induction 1 as [|t tags Ht _ IH].
  - exists []. repeat split; try constructor; simpl.
    + intros [].
    + intros (t & [] & _).
  - destruct IH as (vs & Hm & Hok & Hin).
    destruct (NewVersion t) as [v|] eqn:E; [|congruence].
    exists (v :: vs). simpl. rewrite E, Hm. repeat split.
    + constructor; [apply (NewVersion_spec t v E)|exact Hok].
    + intros [<-|Hu]; [exists t; auto|].
      apply Hin in Hu as (t' & Ht' & E'). exists t'. auto.
    + intros (t' & [<-|Ht'] & E'); [left; congruence|].
      right. apply Hin. eauto.
Qed.

(** ** Sorting yields the maximum *)

Lemma geV_trans (a b c : Version) :
  versionOK a -> versionOK b -> versionOK c ->
  geV a b -> geV b c -> geV a c.
Proof.
  destruct Compare_comparator as [Ha Ht]. unfold geV. intros Da Db Dc H1 H2.
  rewrite (Ha a c) by auto.
  assert (Compare c a <= 0); [|lia].
  apply (Ht c b a); auto; rewrite Ha by auto; lia.
Qed.

Lemma LessThan_geV (x y : Version) :
  versionOK x -> versionOK y -> LessThan x y = true -> geV y x.
Proof.
  destruct Compare_comparator as [Ha _]. unfold LessThan, geV.
  intros Dx Dy H. apply Z.ltb_lt in H. rewrite (Ha y x) by auto. lia.
Qed.

Lemma not_LessThan_geV (x y : Version) : LessThan x y = false -> geV x y.
Proof. unfold LessThan, geV. intros H. apply Z.ltb_ge in H. lia. Qed.

Lemma sink_Some (x : Version) (left : list Version) :
  sink (Some x) (map Some left) = Done (map Some (sinkV x left)).
Proof.
  induction left as [|y left IH]; simpl; [reflexivity|].
  destruct (LessThan x y); [|reflexivity]. now rewrite IH.
Qed.

Lemma insertionSort_Some (todo : list Version) : forall left,
  insertionSort (map Some left) (map Some todo)
  = Done (rev (map Some (insertionSortV left todo))).
Proof.
  induction todo as [|x todo IH]; intros left; simpl; [reflexivity|].
  rewrite sink_Some. apply IH.
Qed.

Lemma sinkV_In (x : Version) (left : list Version) (z : Version) :
  In z (sinkV x left) <-> z = x \/ In z left.
Proof.
  induction left as [|y left IH]; simpl.
  - intuition congruence.
  - destruct (LessThan x y); simpl; rewrite ?IH; intuition congruence.
Qed.

Lemma sinkV_sorted (x : Version) (left : list Version) :
  versionOK x -> Forall versionOK left ->
  StronglySorted geV left -> StronglySorted geV (sinkV x left).
Proof.
  intros Dx. induction left as [|y left IH]; intros Dl Hs; simpl.
  - repeat constructor.
  - inversion Dl as [|? ? Dy Dl']; subst.
    inversion Hs as [|? ? Hs' Hy]; subst.
    destruct (LessThan x y) eqn:E.
    + constructor; [auto|].
      rewrite Forall_forall in *. intros z Hz.
      apply sinkV_In in Hz as [->|Hz]; [now apply LessThan_geV|auto].
    + constructor; [exact Hs|].
      constructor; [now apply not_LessThan_geV|].
      rewrite Forall_forall in *. intros z Hz.
      apply (geV_trans x y z); auto. now apply not_LessThan_geV.
Qed.

Lemma insertionSortV_spec (todo : list Version) : forall left,
  Forall versionOK left -> Forall versionOK todo ->
  StronglySorted geV left ->
  StronglySorted geV (insertionSortV left todo) /\
  (forall z, In z (insertionSortV left todo) <-> In z left \/ In z todo).
Proof.
  induction todo as [|x todo IH]; intros left Dl Dt Hs; simpl.
  - split; [exact Hs|]. intuition.
  - inversion Dt as [|? ? Dx Dt']; subst.
    destruct (IH (sinkV x left)) as [H1 H2]; auto.
    + rewrite Forall_forall in *. intros z Hz.
      apply sinkV_In in Hz as [->|Hz]; auto.
    + now apply sinkV_sorted.
    + split; [exact H1|]. intros z. rewrite H2, sinkV_In. intuition.
Qed.

(** Lines 205-206 on a slice of parsed versions: the element taken is one
    of them and no other is above it. *)
Lemma sort_last_max (vs : list Version) :
  vs <> [] -> Forall versionOK vs ->
  exists sorted cur,
    sort_Sort (map Some vs) = Done (map Some sorted) /\
    lastElem (map Some sorted) = Done (Some cur) /\
    In cur vs /\ (forall u, In u vs -> geV cur u).
Proof.
  intros Hne Hok. destruct vs as [|x rest]; [congruence|].
  inversion Hok as [|? ? Dx Dr]; subst.
  destruct (insertionSortV_spec rest [x]) as [Hs Hin]; auto.
  { repeat constructor. }
  unfold sort_Sort. cbn [map].
  change [Some x] with (map Some [x]). rewrite insertionSort_Some.
  rewrite <- map_rev. exists (rev (insertionSortV [x] rest)).
  unfold lastElem. rewrite <- map_rev, rev_involutive.
  destruct (insertionSortV [x] rest) as [|cur l] eqn:E.
  { exfalso. destruct (Hin x) as [_ H]. apply H. left. now left. }
  exists cur. cbn [map]. repeat split.
  - destruct (Hin cur) as [H _]. simpl in H.
    destruct H as [[<-|[]]|H]; simpl; auto.
  - intros u Hu. inversion Hs as [|? ? Hs' Hall]; subst.
    assert (Hu' : In u (cur :: l)).
    { apply Hin. simpl in Hu. simpl. tauto. }
    destruct Hu' as [<-|Hu'].
    + unfold geV. destruct Compare_comparator as [Ha _].
      assert (Dc : versionOK cur).
      { destruct (Hin cur) as [H _]. simpl in H.
        rewrite Forall_forall in Dr.
        destruct H as [[<-|[]]|H]; auto. }
      specialize (Ha cur cur Dc Dc). lia.
    + rewrite Forall_forall in Hall. auto.
Qed.

(** ** Frames: which stream a call can write to *)

Lemma keeps_ret {A : Type} (s : Stream) (a : A) : keeps s (ret a).
Proof. intros w r w' H. inversion H. reflexivity. Qed.

Lemma keeps_panic {A : Type} (s : Stream) (msg : string) :
  keeps s (@panic A msg).
Proof. intros w r w' H. inversion H. reflexivity. Qed.

Lemma keeps_liftRes {A : Type} (s : Stream) (x : res A) :
  keeps s (liftRes x).
Proof. intros w r w' H. inversion H. reflexivity. Qed.

Lemma keeps_bind {A B : Type} (s : Stream) (m : M A) (k : A -> M B) :
  keeps s m -> (forall a, keeps s (k a)) -> keeps s (bind m k).
Proof.
  intros Hm Hk w r w' H. unfold bind in H.
  destruct (m w) as [[a|msg] w1] eqn:E.
  - rewrite (Hk a _ _ _ H). eapply Hm; eauto.
  - inversion H; subst. eapply Hm; eauto.
Qed.

Lemma keeps_emit (s : Stream) (e : Event) : keeps s (emit e).
Proof. intros w r w' H. inversion H. destruct s; reflexivity. Qed.

Lemma keeps_getTags (s : Stream) : keeps s getTags.
Proof. intros w r w' H. inversion H. reflexivity. Qed.

Lemma keeps_Fprint (s : Stream) (out : Writer) (x : string) :
  targets out s = false -> keeps s (Fprint out x).
Proof.
  intros Ht w r w' H. unfold Fprint in H.
  destruct out, s; try discriminate; inversion H; reflexivity.
Qed.

Create HintDb frames.

#[local] Hint Resolve keeps_ret keeps_panic keeps_liftRes keeps_emit
  keeps_getTags keeps_Fprint : frames.

Section Frames.

Variable env : Env.
Variable s : Stream.

Lemma keeps_printTags (out : Writer) (vs : list (option Version)) :
  targets out s = false -> keeps s (printTags out vs).
Proof.
  intros Ht. induction vs as [|p rest IH]; cbn [printTags].
  - apply keeps_ret.
  - apply keeps_bind; [apply keeps_liftRes|]. intros v.
    apply keeps_bind; [|intros _; exact IH].
    unfold Fprintln. now apply keeps_Fprint.
Qed.

Lemma keeps_currentVersion (c : CLI) :
  targets (Stdout c) s = false -> keeps s (currentVersion env c).
Proof.
  intros Ht. unfold currentVersion.
  destruct (Repo_Tags env); [apply keeps_ret|].
  apply keeps_bind; [apply keeps_getTags|]. intros tags.
  apply keeps_bind; [apply keeps_liftRes|]. intros vs.
  apply keeps_bind; [apply keeps_liftRes|]. intros cur.
  unfold Fprintln.
  repeat (apply keeps_bind; [auto using keeps_printTags with frames|intros _]).
  apply keeps_ret.
Qed.

Lemma keeps_prompt (c : CLI) (label : string) (items : list Spec) :
  keeps s (prompt env c label items).
Proof.
  unfold prompt. apply keeps_bind; [apply keeps_emit|]. intros _.
  destruct (promptui_Run env label items) as [i err].
  destruct (nth_error items i); auto with frames.
Qed.

Lemma keeps_nextVersion (c : CLI) (current : option Version) :
  keeps s (nextVersion env c current).
Proof.
  unfold nextVersion.
  apply keeps_bind; [apply keeps_liftRes|]. intros cur.
  destruct (declaredSpecs (CLI_Option c)) as [|k [|k' rest]].
  - apply keeps_bind; [apply keeps_prompt|].
    intros [sp [e|]]; apply keeps_ret.
  - apply keeps_ret.
  - apply keeps_bind; [apply keeps_prompt|].
    intros [sp [e|]]; apply keeps_ret.
Qed.

Lemma keeps_CreateTag (tag hash message : string) :
  keeps s (CreateTag env tag hash message).
Proof.
  unfold CreateTag. apply keeps_bind; [apply keeps_emit|]. intros _.
  intros w r w' H.
  destruct (existsb (String.eqb tag) (repo_tags w)); [now inversion H|].
  destruct (createTag_fault env tag); inversion H; destruct s; reflexivity.
Qed.

Lemma keeps_Push (out : Writer) (tag : string) :
  targets out s = false -> keeps s (Push env out tag).
Proof.
  intros Ht. unfold Push.
  apply keeps_bind; [apply keeps_emit|]. intros _.
  apply keeps_bind; [now apply keeps_Fprint|]. intros _.
  destruct (Repo_Push env tag); [apply keeps_ret|].
  intros w r w' H. inversion H. destruct s; reflexivity.
Qed.

Lemma keeps_PushTag (c : CLI) (tag : string) :
  targets (Stdout c) s = false -> keeps s (PushTag env c tag).
Proof.
  intros Ht. unfold PushTag.
  destruct (Repo_Head env) as [e|head]; [apply keeps_ret|].
  destruct (Repo_CommitObject env head) as [e|commit]; [apply keeps_ret|].
  destruct (gitconfig_User env) as [e|user]; [apply keeps_ret|].
  destruct (gitconfig_Email env) as [e|email]; [apply keeps_ret|].
  apply keeps_bind; [apply keeps_CreateTag|]. intros [e|]; [apply keeps_ret|].
  apply keeps_bind; [now apply keeps_Fprint|]. intros _.
  apply keeps_bind; [now apply keeps_Push|]. intros r.
  apply keeps_bind; [now apply keeps_Fprint|]. intros _.
  apply keeps_ret.
Qed.

(** [Run] writes through [c.Stdout] only. *)
Lemma keeps_Run (c : CLI) (args : list string) :
  targets (if Option_Quiet (CLI_Option c) then ioutil_Discard else Stdout c) s
  = false ->
  keeps s (Run env c args).
Proof.
  intros Ht. unfold Run.
  destruct (git_PlainOpen env _); [apply keeps_ret|].
  assert (Hout : targets
            (Stdout (if Option_Quiet (CLI_Option c)
                     then mkCLI (CLI_Option c) ioutil_Discard ioutil_Discard
                                (Repo c)
                     else c)) s = false)
    by (destruct (Option_Quiet (CLI_Option c)); exact Ht).
  apply keeps_bind; [now apply keeps_currentVersion|].
  intros [e|current]; [apply keeps_ret|].
  apply keeps_bind; [apply keeps_nextVersion|].
  intros [e|next]; [apply keeps_ret|].
  apply keeps_bind; [apply keeps_liftRes|]. intros cur.
  now apply keeps_PushTag.
Qed.

End Frames.

(** ** The scenarios of the specification *)

Example parse_beta : NewVersion "1.2.3-beta" = Some v1_2_3_beta.
Proof. reflexivity. Qed.
Example parse_max : NewVersion "18446744073709551615.0.0" = Some vMaxMajor.
Proof. reflexivity. Qed.

(** The scenarios of the specification, run end to end. *)
Example scenario_patch :
  let '(r, w) := run (sampleEnv patchFlag None (O, None)) []
                     (worldWith ["v1.0.0"; "v1.1.0"; "v1.1.1"]) in
  r = Done 0 /\ repo_tags w = ["v1.0.0"; "v1.1.0"; "v1.1.1"; "v1.1.2"] /\
  remote_tags w = ["v1.1.2"].
Proof. vm_compute. repeat split. Qed.

Example scenario_major :
  let '(r, w) := run (sampleEnv (mkOption true false false false) None
                                (O, None)) []
                     (worldWith ["0.1.0"]) in
  r = Done 0 /\ repo_tags w = ["0.1.0"; "1.0.0"].
Proof. vm_compute. repeat split. Qed.

Example scenario_sorted_listing :
  os_stdout (snd (currentVersion (sampleEnv noFlags None (O, None))
                    (sampleCLI noFlags)
                    (worldWith ["v1.10.0"; "v1.2.0"; "v1.9.0-rc.1"])))
  = "Tags:" ++ newline ++ "- v1.2.0" ++ newline ++ "- v1.9.0-rc.1" ++ newline
    ++ "- v1.10.0 (current version)" ++ newline ++ newline.
Proof. vm_compute. reflexivity. Qed.

(** ** The version scan *)

(** No error of [currentVersion] reports an empty version set: the only
    error it returns is the one of the tag enumeration. *)
Lemma currentVersion_error_origin (env : Env) (c : CLI) (w w' : World)
    (e : error) :
  currentVersion env c w = (Done (inl e), w') -> Repo_Tags env = Some e.
Proof.
  unfold currentVersion. destruct (Repo_Tags env) as [e'|].
  - intros H. inversion H. reflexivity.
  - unfold bind, getTags, liftRes.
    destruct (sort_Sort (map NewVersion (repo_tags w))) as [vs|]; [|discriminate].
    destruct (lastElem vs); [|discriminate].
    destruct (Fprintln (Stdout c) "Tags:" w) as [[[]|] w1]; [|discriminate].
    destruct (printTags (Stdout c) vs w1) as [[[]|] w2]; [|discriminate].
    destruct (Fprintln (Stdout c) "" w2) as [[[]|] w3]; discriminate.
Qed.

(** A nil slot met by the sort stops the program. *)
Lemma insertionSort_nil_slot (todo : list (option Version)) :
  forall (left : list Version),
    left <> [] -> In None todo ->
    exists msg, insertionSort (map Some left) todo = Panic msg.
Proof.
  induction todo as [|x todo IH]; intros left Hne Hin; [destruct Hin|].
  cbn [insertionSort]. destruct x as [v|].
  - rewrite sink_Some. apply IH.
    + intros E. assert (H : In v (sinkV v left)) by (apply sinkV_In; auto).
      rewrite E in H. destruct H.
    + destruct Hin as [Hin|Hin]; [discriminate|exact Hin].
  - destruct left as [|y left]; [congruence|]. simpl. eauto.
Qed.

(** Any tag that does not parse makes [currentVersion] panic. *)
Lemma currentVersion_nil_slot (env : Env) (c : CLI) (w : World) (t : string) :
  Repo_Tags env = None -> In t (repo_tags w) -> NewVersion t = None ->
  exists msg w', currentVersion env c w = (Panic msg, w').
Proof.
  intros Ht Hin Hbad. unfold currentVersion. rewrite Ht.
  unfold bind, getTags, liftRes.
  assert (HN : In None (map NewVersion (repo_tags w))).
  { rewrite <- Hbad. now apply in_map. }
  destruct (map NewVersion (repo_tags w)) as [|x rest] eqn:E; [destruct HN|].
  cbn [sort_Sort]. destruct x as [v|].
  - destruct HN as [HN|HN]; [discriminate|].
    destruct (insertionSort_nil_slot rest [v]) as (msg & Hp); [congruence|exact HN|].
    change [Some v] with (map Some [v]). rewrite Hp. eauto.
  - destruct rest as [|y rest].
    + cbn. destruct (Stdout c); cbn; eauto.
    + cbn [insertionSort sink]. destruct y; cbn; eauto.
Qed.

(** C1 (the scan skips unparseable tags and signals NoVersionsFound exactly
    when nothing parsed): the code does neither. With no tag at all the
    index [len(vs)-1] is out of range; an unparseable tag leaves a nil slot
    in [vs], which the sort or the listing dereferences. All three runs end
    in a panic, none in a returned error. *)
Theorem C1_scan_panics :
  let env := sampleEnv noFlags None (O, None) in
  let c := sampleCLI noFlags in
  currentVersion env c (worldWith []) = (Panic indexRange, worldWith []) /\
  fst (currentVersion env c (worldWith ["nightly"; "v1.0.0"]))
    = Panic nilDeref /\
  fst (currentVersion env c (worldWith ["nightly"])) = Panic nilDeref.
Proof. vm_compute. repeat split. Qed.

(** ** Resolving the bump kind *)

Lemma prompt_run (env : Env) (c : CLI) (label : string) (items : list Spec)
    (w : World) :
  prompt env c label items w
  = (match nth_error items (fst (promptui_Run env label items)) with
     | Some s => Done (s, snd (promptui_Run env label items))
     | None => Panic indexRange
     end, logged (EPrompt label items) w).
Proof.
  unfold prompt, bind, emit, logged.
  destruct (promptui_Run env label items) as [i e]. cbn [fst snd].
  destruct (nth_error items i); reflexivity.
Qed.

(** With [--major --patch] the menu shown is [Major, Patch], which is not
    the Patch-first menu [Patch, Major]. *)
Lemma C2_counterexample :
  let w := snd (nextVersion (sampleEnv majorPatchFlags None (O, None))
                  (sampleCLI majorPatchFlags) (Some v1_2_3) (worldWith [])) in
  menusOf (trace w) = [[Major; Patch]] /\
  menusOf (trace w) <> [menuPatchFirst majorPatchFlags].
Proof. vm_compute. split; [reflexivity|discriminate]. Qed.

(** C2, amended: when two or more bump flags are declared, one menu is
    offered; it holds exactly the declared kinds, in the order Major,
    Minor, Patch. *)
Theorem C2_menu_declared_kinds (env : Env) (c : CLI) (cur : Version)
    (w : World) :
  (2 <= List.length (filter (flagSet (CLI_Option c)) [Major; Minor; Patch]))%nat ->
  trace (snd (nextVersion env c (Some cur) w))
  = (trace w ++ [EPrompt (selectLabel cur)
                   (filter (flagSet (CLI_Option c)) [Major; Minor; Patch])])%list.
Proof.
  destruct c as [[ma mi pa q] out err repo]. unfold nextVersion, declaredSpecs.
  cbn [CLI_Option Option_Major Option_Minor Option_Patch flagSet filter].
  destruct ma, mi, pa; cbn [List.length filter app]; intros H; try lia;
    unfold bind, liftRes, deref; rewrite prompt_run;
    match goal with
    | |- context [nth_error ?l ?i] => destruct (nth_error l i) as [k|]
    end; try reflexivity;
    match goal with
    | |- context [snd (promptui_Run ?e ?l ?i)] =>
        destruct (snd (promptui_Run e l i))
    end; reflexivity.
Qed.

Lemma C2_menu_declared_kinds_witness :
  trace (snd (nextVersion (sampleEnv majorPatchFlags None (O, None))
                (sampleCLI majorPatchFlags) (Some v1_2_3) (worldWith [])))
  = [EPrompt (selectLabel v1_2_3) [Major; Patch]].
Proof.
  apply (C2_menu_declared_kinds (sampleEnv majorPatchFlags None (O, None))
           (sampleCLI majorPatchFlags) v1_2_3 (worldWith [])).
  simpl. lia.
Defined.

(** C9: with no bump flag one menu over [Patch, Minor, Major] is offered,
    labelled with the current version's text, and the selected kind is the
    one applied; with exactly one flag that kind is applied and nothing is
    asked. *)
Theorem C9_menu_or_direct (env : Env) (c : CLI) (cur : Version) (w : World) :
  ((forall s, flagSet (CLI_Option c) s = false) ->
   forall i k,
     promptui_Run env (selectLabel cur) [Patch; Minor; Major] = (i, None) ->
     nth_error [Patch; Minor; Major] i = Some k ->
     selectLabel cur
       = "Current tag is " ++ quote (Original cur) ++ ". Next is?" /\
     nextVersion env c (Some cur) w
       = (Done (inr (applySpec k cur)),
          logged (EPrompt (selectLabel cur) [Patch; Minor; Major]) w)) /\
  (forall k,
     (forall s, flagSet (CLI_Option c) s = true <-> s = k) ->
     nextVersion env c (Some cur) w = (Done (inr (applySpec k cur)), w)).
Proof.
  destruct c as [[ma mi pa q] out err repo]. split.
  - intros Hnone i k Hsel Hk. split; [reflexivity|].
    pose proof (Hnone Major) as H1. pose proof (Hnone Minor) as H2.
    pose proof (Hnone Patch) as H3. simpl in H1, H2, H3. subst.
    unfold nextVersion, declaredSpecs. simpl.
    unfold bind, liftRes. simpl. rewrite prompt_run, Hsel. cbn [fst snd].
    rewrite Hk. reflexivity.
  - intros k Hone.
    pose proof (Hone Major) as H1. pose proof (Hone Minor) as H2.
    pose proof (Hone Patch) as H3. simpl in H1, H2, H3.
    unfold nextVersion, declaredSpecs. simpl.
    destruct k, ma, mi, pa; try reflexivity; exfalso;
      first [ discriminate (proj1 H1 eq_refl)
            | discriminate (proj1 H2 eq_refl)
            | discriminate (proj1 H3 eq_refl)
            | discriminate (proj2 H1 eq_refl)
            | discriminate (proj2 H2 eq_refl)
            | discriminate (proj2 H3 eq_refl) ].
Qed.

Lemma C9_menu_or_direct_witness :
  nextVersion (sampleEnv noFlags None (1%nat, None)) (sampleCLI noFlags)
              (Some v1_2_3) (worldWith [])
    = (Done (inr (applySpec Minor v1_2_3)),
       logged (EPrompt (selectLabel v1_2_3) [Patch; Minor; Major])
              (worldWith [])) /\
  nextVersion (sampleEnv patchFlag None (O, None)) (sampleCLI patchFlag)
              (Some v1_2_3) (worldWith [])
    = (Done (inr (applySpec Patch v1_2_3)), worldWith []).
Proof.
  split.
  - apply (proj1 (C9_menu_or_direct (sampleEnv noFlags None (1%nat, None))
                    (sampleCLI noFlags) v1_2_3 (worldWith []))
             (fun s => match s with
                       | Major => eq_refl | Minor => eq_refl | Patch => eq_refl
                       end)
             1%nat Minor eq_refl eq_refl).
  - apply (proj2 (C9_menu_or_direct (sampleEnv patchFlag None (O, None))
                    (sampleCLI patchFlag) v1_2_3 (worldWith [])) Patch).
    intros s; destruct s; simpl; split; intros H; congruence.
Defined.

(** ** Bumping *)

(** A Patch bump of the pre-release 1.2.3-beta gives 1.2.3, not 1.2.4, and
    a Major bump of the highest major segment wraps around to 0. *)
Lemma C4_counterexample :
  NewVersion "1.2.3-beta" = Some v1_2_3_beta /\
  triple (applySpec Patch v1_2_3_beta) = (1, 2, 3) /\
  triple (applySpec Patch v1_2_3_beta) <> statedTriple Patch v1_2_3_beta /\
  NewVersion "18446744073709551615.0.0" = Some vMaxMajor /\
  triple (applySpec Major vMaxMajor) = (0, 0, 0) /\
  triple (applySpec Major vMaxMajor) <> statedTriple Major vMaxMajor.
Proof. vm_compute. repeat split; discriminate. Qed.

(** C4, amended: the bump drops pre-release and metadata; Major gives
    (major+1, 0, 0) and Minor gives (major, minor+1, 0), the sum taken in
    64 bits; Patch gives (major, minor, patch+1) on a version without
    pre-release and (major, minor, patch) on a pre-release. *)
Theorem C4_bump_components (k : Spec) (v : Version) :
  pre (applySpec k v) = "" /\ metadata (applySpec k v) = "" /\
  triple (applySpec k v)
  = match k with
    | Major => (wrap64 (major v + 1), 0, 0)
    | Minor => (major v, wrap64 (minor v + 1), 0)
    | Patch => if String.eqb (pre v) ""
               then (major v, minor v, wrap64 (patch v + 1))
               else (major v, minor v, patch v)
    end.
Proof.
  destruct k; unfold applySpec, IncMajor, IncMinor, IncPatch, triple.
  - repeat split.
  - repeat split.
  - destruct (String.eqb (pre v) ""); repeat split.
Qed.

(** Below the 64-bit limit the sums are the plain ones. *)
Lemma wrap64_succ (z : Z) : 0 <= z < maxUint64 -> wrap64 (z + 1) = z + 1.
Proof.
  unfold wrap64, maxUint64. intros H. apply Z.mod_small. lia.
Qed.

Lemma wrap64_twice (z : Z) : wrap64 (wrap64 (z + 1) + 1) = wrap64 (z + 2).
Proof.
  unfold wrap64. rewrite Zplus_mod_idemp_l. f_equal. lia.
Qed.

Lemma originalVPrefix_withOriginal (v n : Version) :
  originalVPrefix (withOriginal v n) = originalVPrefix v.
Proof.
  unfold originalVPrefix at 1. unfold withOriginal. cbn [original].
  destruct (Version_String_head n) as (c & r & -> & Hc).
  unfold originalVPrefix. destruct (original v) as [|x rest].
  - cbn. now rewrite (digit_not_v c Hc).
  - destruct (Ascii.eqb x "v"); cbn.
    + reflexivity.
    + now rewrite (digit_not_v c Hc).
Qed.

Example two_patch_bumps :
  Version_String (applySpec Patch (applySpec Patch v1_2_3)) = "1.2.5".
Proof. reflexivity. Qed.

(** Two Patch bumps of 1.2.3-beta give 1.2.4, not 1.2.5; the Major bump of
    the highest major segment is below the version it started from. *)
Lemma C5_counterexample :
  Version_String (applySpec Patch (applySpec Patch v1_2_3_beta)) = "1.2.4" /\
  applySpec Patch (applySpec Patch v1_2_3_beta) <> incBy 2 Patch v1_2_3_beta /\
  Compare (applySpec Major vMaxMajor) vMaxMajor = -1.
Proof. vm_compute. repeat split; discriminate. Qed.

(** C5, amended: when the segment to raise is below 2^64-1, the bumped
    version is strictly above the current one; two Major bumps, two Minor
    bumps, and two Patch bumps of a version without pre-release, equal one
    step that raises the segment by two; two Patch bumps of a pre-release
    raise the patch by one, the first only dropping the pre-release. *)
Theorem C5_bump_above_and_twice (k : Spec) (v : Version) :
  0 <= segment k v < maxUint64 ->
  Compare (applySpec k v) v = 1 /\
  applySpec k (applySpec k v)
  = incBy (match k with
           | Patch => if String.eqb (pre v) "" then 2 else 1
           | _ => 2
           end) k v.
Proof.
  intros Hseg. split.
  - unfold Compare, compareSegment.
    destruct k; cbn [segment] in Hseg;
      unfold applySpec, IncMajor, IncMinor, IncPatch.
    + cbn [withOriginal major minor patch pre].
      rewrite wrap64_succ by exact Hseg.
      destruct (Z.ltb_spec (major v + 1) (major v)); [lia|].
      destruct (Z.ltb_spec (major v) (major v + 1)); [reflexivity|lia].
    + cbn [withOriginal major minor patch pre].
      rewrite Z.ltb_irrefl. cbn [Z.eqb negb].
      rewrite wrap64_succ by exact Hseg.
      destruct (Z.ltb_spec (minor v + 1) (minor v)); [lia|].
      destruct (Z.ltb_spec (minor v) (minor v + 1)); [reflexivity|lia].
    + destruct (String.eqb_spec (pre v) "") as [E|E];
        cbn [negb withOriginal major minor patch pre];
        rewrite !Z.ltb_irrefl; cbn [Z.eqb negb].
      * rewrite wrap64_succ by exact Hseg.
        destruct (Z.ltb_spec (patch v + 1) (patch v)); [lia|].
        destruct (Z.ltb_spec (patch v) (patch v + 1)); [reflexivity|lia].
      * cbn [String.eqb andb].
        destruct (String.eqb_spec (pre v) ""); [contradiction|reflexivity].
  - destruct k; unfold applySpec, IncMajor, IncMinor, IncPatch, incBy.
    + unfold withOriginal at 1. rewrite originalVPrefix_withOriginal.
      cbn [withOriginal major minor patch pre metadata].
      rewrite wrap64_twice. reflexivity.
    + unfold withOriginal at 1. rewrite originalVPrefix_withOriginal.
      cbn [withOriginal major minor patch pre metadata].
      rewrite wrap64_twice. reflexivity.
    + destruct (String.eqb (pre v) ""); cbn [negb];
        cbn [withOriginal pre String.eqb negb];
        unfold withOriginal at 1; rewrite originalVPrefix_withOriginal;
        cbn [withOriginal major minor patch pre metadata];
        rewrite ?wrap64_twice; reflexivity.
Qed.

Lemma C5_bump_above_and_twice_witness :
  Compare (applySpec Patch v1_2_3) v1_2_3 = 1 /\
  applySpec Patch (applySpec Patch v1_2_3) = incBy 2 Patch v1_2_3.
Proof.
  apply (C5_bump_above_and_twice Patch v1_2_3). vm_compute.
  split; [discriminate|reflexivity].
Defined.

(** ** The tag name *)

Lemma HasPrefix_v (s : string) :
  HasPrefix s Prefix
  = match s with
    | String c _ => Ascii.eqb c "v"
    | EmptyString => false
    end.
Proof.
  unfold HasPrefix, Prefix. destruct s as [|c r]; [reflexivity|].
  cbn [String.prefix].
  destruct (ascii_dec "v" c) as [<-|Hne].
  - destruct r; reflexivity.
  - destruct (Ascii.eqb_spec c "v"); [congruence|reflexivity].
Qed.

(** A run that got its current and next versions publishes [tagName]. *)
Lemma Run_publishes_tagName (env : Env) (c : CLI) (args : list string)
    (w w1 w2 : World) (cur next : Version) :
  git_PlainOpen env (workDir args) = None ->
  currentVersion env (cliInRun c args) w = (Done (inr (Some cur)), w1) ->
  nextVersion env (cliInRun c args) (Some cur) w1 = (Done (inr next), w2) ->
  Run env c args w = PushTag env (cliInRun c args) (tagName cur next) w2.
Proof.
  intros Ho Hc Hn. unfold Run. fold (workDir args). rewrite Ho.
  assert (E : mkCLI
                (CLI_Option (if Option_Quiet (CLI_Option c)
                             then mkCLI (CLI_Option c) ioutil_Discard
                                        ioutil_Discard (Repo c)
                             else c))
                (Stdout (if Option_Quiet (CLI_Option c)
                         then mkCLI (CLI_Option c) ioutil_Discard
                                    ioutil_Discard (Repo c)
                         else c))
                (Stderr (if Option_Quiet (CLI_Option c)
                         then mkCLI (CLI_Option c) ioutil_Discard
                                    ioutil_Discard (Repo c)
                         else c))
                (Some (workDir args)) = cliInRun c args).
  { unfold cliInRun. destruct (Option_Quiet (CLI_Option c)); reflexivity. }
  rewrite E. unfold bind at 1. rewrite Hc.
  unfold bind at 1. rewrite Hn. reflexivity.
Qed.


(** ** Publishing *)

Lemma Fprint_run (out : Writer) (text : string) (w : World) :
  Fprint out text w = (Done tt, written out text w).
Proof. destruct out; reflexivity. Qed.

Lemma CreateTag_run (env : Env) (tag hash message : string) (w : World) :
  CreateTag env tag hash message w
  = if existsb (String.eqb tag) (repo_tags w) then
      (Done (Some "tag already exists"),
       logged (ECreateTag tag hash message) w)
    else
      match createTag_fault env tag with
      | Some err => (Done (Some err), logged (ECreateTag tag hash message) w)
      | None =>
          (Done None,
           mkWorld (os_stdout w) (os_stderr w) (repo_tags w ++ [tag])
                   (remote_tags w)
                   (trace w ++ [ECreateTag tag hash message]))
      end.
Proof.
  unfold CreateTag, bind, emit, logged. cbn.
  destruct (existsb (String.eqb tag) (repo_tags w)); [reflexivity|].
  destruct (createTag_fault env tag); reflexivity.
Qed.

(** A refused tag creation ends [PushTag] before any push. *)
Lemma PushTag_refused (env : Env) (c : CLI) (tag : string) (w : World) :
  existsb (String.eqb tag) (repo_tags w) = true \/
  createTag_fault env tag <> None ->
  exists e w',
    PushTag env c tag w = (Done (Some e), w') /\
    pushesOf (trace w') = pushesOf (trace w) /\
    remote_tags w' = remote_tags w /\ repo_tags w' = repo_tags w.
Proof.
  intros Href. unfold PushTag.
  destruct (Repo_Head env) as [e|head]; [exists e, w; now repeat split|].
  destruct (Repo_CommitObject env head) as [e|commit];
    [exists e, w; now repeat split|].
  destruct (gitconfig_User env) as [e|user]; [exists e, w; now repeat split|].
  destruct (gitconfig_Email env) as [e|email]; [exists e, w; now repeat split|].
  unfold bind. rewrite CreateTag_run.
  assert (Hp : pushesOf (trace w ++ [ECreateTag tag head (Commit_Message commit)])
               = pushesOf (trace w)).
  { unfold pushesOf. rewrite filter_app. simpl. apply app_nil_r. }
  destruct (existsb (String.eqb tag) (repo_tags w)) eqn:Ex.
  - eexists _, _. split; [reflexivity|]. cbn. auto.
  - destruct Href as [?|Hf]; [discriminate|].
    destruct (createTag_fault env tag) as [e|]; [|congruence].
    eexists _, _. split; [reflexivity|]. cbn. auto.
Qed.

(** A failed push after a successful creation: the error is returned, the
    tag reference stays, and the pushed line is written all the same. *)
Lemma PushTag_push_failed (env : Env) (c : CLI) (tag : string) (w : World)
    (head user email : string) (commit : Commit) (e : error) :
  Repo_Head env = inr head -> Repo_CommitObject env head = inr commit ->
  gitconfig_User env = inr user -> gitconfig_Email env = inr email ->
  existsb (String.eqb tag) (repo_tags w) = false ->
  createTag_fault env tag = None -> Repo_Push env tag = Some e ->
  PushTag env c tag w
  = (Done (Some e),
     written (Stdout c) pushedLine
       (written (Stdout c) (Push_progress env)
          (logged (EPush "origin" (refspecOf tag))
             (written (Stdout c) (bumpLine tag)
                (mkWorld (os_stdout w) (os_stderr w) (repo_tags w ++ [tag])
                   (remote_tags w)
                   (trace w ++ [ECreateTag tag head (Commit_Message commit)])))))).
Proof.
  intros Hh Hc Hu He Hex Hf Hp. unfold PushTag.
  rewrite Hh, Hc, Hu, He. unfold bind. rewrite CreateTag_run, Hex, Hf.
  rewrite Fprint_run. unfold Push, bind, emit. rewrite Hp.
  rewrite Fprint_run. unfold ret. rewrite Fprint_run. reflexivity.
Qed.

(** C3 (the pushed line is written only when the push succeeded): the
    write of "Pushed to origin." is deferred and runs whatever the push
    returned. Here the push fails, the error is returned, nothing reached
    the remote, and the output still ends with the pushed line. *)
Theorem C3_pushed_line_despite_failure :
  let '(r, w) :=
    PushTag (sampleEnv patchFlag (Some "authentication required") (O, None))
            (sampleCLI patchFlag) "v1.1.2" (worldWith ["v1.1.1"]) in
  r = Done (Some "authentication required") /\
  remote_tags w = [] /\
  os_stdout w = bumpLine "v1.1.2" ++ pushedLine.
Proof. vm_compute. repeat split. Qed.

(** C8: a refused tag creation returns its error without any push request
    and without touching the remote; a push that fails after the tag was
    created returns the push error and leaves the new tag reference in the
    local repository, the only requests made being the creation and the
    push. *)
Theorem C8_publish_sequence (env : Env) (c : CLI) (tag : string) (w : World) :
  (existsb (String.eqb tag) (repo_tags w) = true \/
   createTag_fault env tag <> None ->
   exists e w',
     PushTag env c tag w = (Done (Some e), w') /\
     pushesOf (trace w') = pushesOf (trace w) /\
     remote_tags w' = remote_tags w) /\
  (forall head commit user email e,
     Repo_Head env = inr head -> Repo_CommitObject env head = inr commit ->
     gitconfig_User env = inr user -> gitconfig_Email env = inr email ->
     existsb (String.eqb tag) (repo_tags w) = false ->
     createTag_fault env tag = None -> Repo_Push env tag = Some e ->
     exists w',
       PushTag env c tag w = (Done (Some e), w') /\
       repo_tags w' = (repo_tags w ++ [tag])%list /\
       remote_tags w' = remote_tags w /\
       trace w' = (trace w ++ [ECreateTag tag head (Commit_Message commit);
                               EPush "origin" (refspecOf tag)])%list).
Proof.
  split.
  - intros Href. destruct (PushTag_refused env c tag w Href)
      as (e & w' & H1 & H2 & H3 & _). eauto.
  - intros head commit user email e Hh Hc Hu He Hex Hf Hp.
    eexists. split; [eapply PushTag_push_failed; eauto|].
    destruct (Stdout c); cbn; rewrite <- ?app_assoc; repeat split.
Qed.

Lemma C8_publish_sequence_witness :
  (exists e w',
     PushTag (sampleEnv patchFlag None (O, None)) (sampleCLI patchFlag)
             "v1.1.1" (worldWith ["v1.1.1"]) = (Done (Some e), w') /\
     pushesOf (trace w') = [] /\ remote_tags w' = []) /\
  (exists w',
     PushTag (sampleEnv patchFlag (Some "authentication required") (O, None))
             (sampleCLI patchFlag) "v1.1.2" (worldWith ["v1.1.1"])
       = (Done (Some "authentication required"), w') /\
     repo_tags w' = ["v1.1.1"; "v1.1.2"] /\ remote_tags w' = [] /\
     trace w' = [ECreateTag "v1.1.2" "4f2a9c1" "Release";
                 EPush "origin" (refspecOf "v1.1.2")]).
Proof.
  split.
  - apply (proj1 (C8_publish_sequence (sampleEnv patchFlag None (O, None))
                    (sampleCLI patchFlag) "v1.1.1" (worldWith ["v1.1.1"]))).
    left. reflexivity.
  - apply (proj2 (C8_publish_sequence
                    (sampleEnv patchFlag (Some "authentication required")
                               (O, None))
                    (sampleCLI patchFlag) "v1.1.2" (worldWith ["v1.1.1"]))
             "4f2a9c1" (mkCommit "Release" 1580000000) "alice"
             "alice@example.com" "authentication required");
      reflexivity.
Defined.

(** ** The current version *)

Lemma printTags_Some (out : Writer) (vs : list Version) : forall w,
  exists w', printTags out (map Some vs) w = (Done tt, w').
Proof.
  induction vs as [|v vs IH]; intros w; cbn [map printTags].
  - exists w. reflexivity.
  - unfold bind, liftRes. cbn [deref]. unfold Fprintln.
    rewrite Fprint_run. apply IH.
Qed.

(** C6: when the tags are a non-empty set of versions that parsed,
    [currentVersion] returns one of them, and that one is greater than or
    equal to each of them in the order of [Compare] (major, minor, patch,
    then pre-release). *)
Theorem C6_current_is_maximum (env : Env) (c : CLI) (w : World) :
  Repo_Tags env = None ->
  repo_tags w <> [] ->
  Forall (fun t => NewVersion t <> None) (repo_tags w) ->
  exists cur w',
    currentVersion env c w = (Done (inr (Some cur)), w') /\
    (exists t, In t (repo_tags w) /\ NewVersion t = Some cur) /\
    (forall t u, In t (repo_tags w) -> NewVersion t = Some u ->
                 0 <= Compare cur u).
Proof.
  intros Ht Hne Hall.
  destruct (map_NewVersion_all _ Hall) as (vs & Hm & Hok & Hin).
  assert (Hvs : vs <> []).
  { intros ->. destruct (repo_tags w); [congruence|discriminate]. }
  destruct (sort_last_max vs Hvs Hok) as (sorted & cur & Hs & Hl & Hc & Hmax).
  unfold currentVersion. rewrite Ht. unfold bind, getTags, liftRes.
  rewrite Hm, Hs, Hl. unfold Fprintln. rewrite Fprint_run.
  destruct (printTags_Some (Stdout c) sorted
              (written (Stdout c) ("Tags:" ++ newline) w)) as (w1 & ->).
  rewrite Fprint_run. unfold ret.
  eexists cur, _. split; [reflexivity|]. split.
  - now apply Hin.
  - intros t u Hit Hu. apply Hmax. apply Hin. eauto.
Qed.

Lemma C6_current_is_maximum_witness :
  exists cur w',
    currentVersion (sampleEnv noFlags None (O, None)) (sampleCLI noFlags)
                   (worldWith ["v1.10.0"; "v1.2.0"; "v1.9.0-rc.1"])
      = (Done (inr (Some cur)), w') /\
    (exists t, In t ["v1.10.0"; "v1.2.0"; "v1.9.0-rc.1"] /\
               NewVersion t = Some cur) /\
    (forall t u, In t ["v1.10.0"; "v1.2.0"; "v1.9.0-rc.1"] ->
                 NewVersion t = Some u -> 0 <= Compare cur u).
Proof.
  apply (C6_current_is_maximum (sampleEnv noFlags None (O, None))
           (sampleCLI noFlags)
           (worldWith ["v1.10.0"; "v1.2.0"; "v1.9.0-rc.1"])).
  - reflexivity.
  - discriminate.
  - repeat constructor; discriminate.
Defined.

(** ** Reporting errors *)



(** * Further properties *)

(** ** What a call leaves as it was *)

Section Respects.

Variable R : World -> World -> Prop.
Hypothesis R_refl : forall w, R w w.
Hypothesis R_trans : forall a b c, R a b -> R b c -> R a c.

Lemma respects_ret {A : Type} (a : A) : respects R (ret a).
Proof. intros w r w' H. inversion H. apply R_refl. Qed.

Lemma respects_panic {A : Type} (msg : string) : respects R (@panic A msg).
Proof. intros w r w' H. inversion H. apply R_refl. Qed.

Lemma respects_liftRes {A : Type} (x : res A) : respects R (liftRes x).
Proof. intros w r w' H. inversion H. apply R_refl. Qed.

Lemma respects_getTags : respects R getTags.
Proof. intros w r w' H. inversion H. apply R_refl. Qed.

Lemma respects_bind {A B : Type} (m : M A) (k : A -> M B) :
  respects R m -> (forall a, respects R (k a)) -> respects R (bind m k).
Proof.
  intros Hm Hk w r w' H. unfold bind in H.
  destruct (m w) as [[a|msg] w1] eqn:E.
  - apply (R_trans w w1 w'); [eapply Hm; eauto|eapply Hk; eauto].
  - inversion H; subst. eapply Hm; eauto.
Qed.

Hypothesis R_written : forall out text w, R w (written out text w).

Lemma respects_Fprint (out : Writer) (text : string) :
  respects R (Fprint out text).
Proof. intros w r w' H. inversion H. apply R_written. Qed.

Lemma respects_printTags (out : Writer) (vs : list (option Version)) :
  respects R (printTags out vs).
Proof.
  induction vs as [|p rest IH]; cbn [printTags].
  - apply respects_ret.
  - apply respects_bind; [apply respects_liftRes|]. intros v.
    apply respects_bind; [apply respects_Fprint|]. intros _. exact IH.
Qed.

Lemma respects_currentVersion (env : Env) (c : CLI) :
  respects R (currentVersion env c).
Proof.
  unfold currentVersion.
  destruct (Repo_Tags env); [apply respects_ret|].
  apply respects_bind; [apply respects_getTags|]. intros tags.
  apply respects_bind; [apply respects_liftRes|]. intros vs.
  apply respects_bind; [apply respects_liftRes|]. intros cur.
  apply respects_bind; [apply respects_Fprint|]. intros _.
  apply respects_bind; [apply respects_printTags|]. intros _.
  apply respects_bind; [apply respects_Fprint|]. intros _.
  apply respects_ret.
Qed.

Hypothesis R_logged : forall e w, R w (logged e w).

Lemma respects_prompt (env : Env) (c : CLI) (label : string)
    (items : list Spec) :
  respects R (prompt env c label items).
Proof.
  intros w r w' H. rewrite prompt_run in H. inversion H. apply R_logged.
Qed.

Lemma respects_nextVersion (env : Env) (c : CLI) (current : option Version) :
  respects R (nextVersion env c current).
Proof.
  unfold nextVersion.
  apply respects_bind; [apply respects_liftRes|]. intros cur.
  destruct (declaredSpecs (CLI_Option c)) as [|k [|k' rest]].
  - apply respects_bind; [apply respects_prompt|].
    intros [sp [e|]]; apply respects_ret.
  - apply respects_ret.
  - apply respects_bind; [apply respects_prompt|].
    intros [sp [e|]]; apply respects_ret.
Qed.

End Respects.

Lemma sameRepo_refl (w : World) : sameRepo w w.
Proof. split; reflexivity. Qed.

Lemma sameRepo_trans (a b c : World) :
  sameRepo a b -> sameRepo b c -> sameRepo a c.
Proof. intros [H1 H2] [H3 H4]. split; congruence. Qed.

Lemma sameRepo_written (out : Writer) (text : string) (w : World) :
  sameRepo w (written out text w).
Proof. destruct out; split; reflexivity. Qed.

Lemma sameRepo_logged (e : Event) (w : World) : sameRepo w (logged e w).
Proof. split; reflexivity. Qed.

Lemma readOnly_refl (w : World) : readOnly w w.
Proof. split; [apply sameRepo_refl|reflexivity]. Qed.

Lemma readOnly_trans (a b c : World) :
  readOnly a b -> readOnly b c -> readOnly a c.
Proof.
  intros [H1 H2] [H3 H4]. split; [eapply sameRepo_trans; eauto|congruence].
Qed.

Lemma readOnly_written (out : Writer) (text : string) (w : World) :
  readOnly w (written out text w).
Proof. split; [apply sameRepo_written|]. destruct out; reflexivity. Qed.

(** X1: whatever its outcome (a version, an error or a panic),
    [currentVersion] only writes to its output: the local and remote tag
    references are untouched and no request is recorded. *)
Theorem X1_currentVersion_read_only (env : Env) (c : CLI) (w w' : World)
    (r : res (error + option Version)) :
  currentVersion env c w = (r, w') ->
  repo_tags w' = repo_tags w /\ remote_tags w' = remote_tags w /\
  trace w' = trace w.
Proof.
  intros H.
  destruct (respects_currentVersion readOnly readOnly_refl readOnly_trans
              readOnly_written env c w r w' H) as [[H1 H2] H3].
  auto.
Qed.

Lemma X1_currentVersion_read_only_witness :
  let w' := snd (currentVersion (sampleEnv noFlags None (O, None))
                   (sampleCLI noFlags) (worldWith ["nightly"; "v1.0.0"])) in
  repo_tags w' = ["nightly"; "v1.0.0"] /\ remote_tags w' = [] /\
  trace w' = [].
Proof.
  apply (X1_currentVersion_read_only (sampleEnv noFlags None (O, None))
           (sampleCLI noFlags) (worldWith ["nightly"; "v1.0.0"]) _
           (fst (currentVersion (sampleEnv noFlags None (O, None))
                   (sampleCLI noFlags) (worldWith ["nightly"; "v1.0.0"])))).
  vm_compute. reflexivity.
Defined.

(** ** Resolving the kind: further properties *)

Lemma declaredSpecs_flagSet (o : Option) (k : Spec) :
  In k (declaredSpecs o) <-> flagSet o k = true.
Proof.
  destruct o as [ma mi pa q]. unfold declaredSpecs. simpl.
  destruct ma, mi, pa, k; simpl; intuition (try discriminate).
Qed.



(** What a returned version is made of. *)
Lemma nextVersion_returned_version (env : Env) (c : CLI)
    (current : option Version) (w w' : World) (n : Version) :
  nextVersion env c current w = (Done (inr n), w') ->
  exists cur k,
    current = Some cur /\ n = applySpec k cur /\
    (declaredSpecs (CLI_Option c) <> [] -> flagSet (CLI_Option c) k = true).
Proof.
  unfold nextVersion, bind, liftRes.
  destruct current as [cur|]; cbn [deref]; [|discriminate].
  destruct (declaredSpecs (CLI_Option c)) as [|k [|k' rest]] eqn:E;
    try rewrite prompt_run.
  - destruct (nth_error _ _) as [sp|]; [|discriminate].
    destruct (snd (promptui_Run env _ _)); [discriminate|].
    intros H. inversion H. exists cur, sp. repeat split. congruence.
  - intros H. inversion H. exists cur, k. repeat split. intros _.
    apply declaredSpecs_flagSet. rewrite E. now left.
  - destruct (nth_error _ _) as [sp|] eqn:En; [|discriminate].
    destruct (snd (promptui_Run env _ _)); [discriminate|].
    intros H. inversion H. exists cur, sp. repeat split. intros _.
    apply declaredSpecs_flagSet. rewrite E. eapply nth_error_In; eauto.
Qed.

(** X3: a version returned by [nextVersion] is the current version bumped
    by one of the three kinds, and by a declared kind whenever a flag is
    declared: the menu never leads to a kind that was not asked for. *)
Theorem X3_nextVersion_applies_declared_kind (env : Env) (c : CLI)
    (current : option Version) (w w' : World) (n : Version) :
  nextVersion env c current w = (Done (inr n), w') ->
  exists cur k,
    current = Some cur /\ n = applySpec k cur /\
    (declaredSpecs (CLI_Option c) <> [] -> flagSet (CLI_Option c) k = true).
Proof. apply nextVersion_returned_version. Qed.

Lemma X3_nextVersion_applies_declared_kind_witness :
  exists cur k,
    Some v1_2_3 = Some cur /\
    applySpec Patch v1_2_3 = applySpec k cur /\
    (declaredSpecs majorPatchFlags <> [] -> flagSet majorPatchFlags k = true).
Proof.
  apply (X3_nextVersion_applies_declared_kind
           (sampleEnv majorPatchFlags None (1%nat, None))
           (sampleCLI majorPatchFlags) (Some v1_2_3) (worldWith ["v1.2.3"])
           (snd (nextVersion (sampleEnv majorPatchFlags None (1%nat, None))
                   (sampleCLI majorPatchFlags) (Some v1_2_3)
                   (worldWith ["v1.2.3"])))).
  vm_compute. reflexivity.
Defined.

(** An aborted selection ends [nextVersion] with its error. *)
Lemma nextVersion_selection_aborted (env : Env) (c : CLI)
    (cur : Version) (w : World) (i : nat) (err : error) :
  List.length (declaredSpecs (CLI_Option c)) <> 1%nat ->
  promptui_Run env (selectLabel cur) (menuOf (CLI_Option c)) = (i, Some err) ->
  (i < List.length (menuOf (CLI_Option c)))%nat ->
  nextVersion env c (Some cur) w
  = (Done (inl (err ++ ": failed to select valid semver spec")),
     logged (EPrompt (selectLabel cur) (menuOf (CLI_Option c))) w).
Proof.
  unfold nextVersion, bind, liftRes, menuOf. cbn [deref].
  destruct (declaredSpecs (CLI_Option c)) as [|k [|k' rest]];
    intros Hl Hp Hi; try (cbn in Hl; congruence);
    rewrite prompt_run, Hp; cbn [fst snd];
    apply nth_error_Some in Hi;
    destruct (nth_error _ i) as [sp|]; try congruence; reflexivity.
Qed.

(** X4: when the selection is asked for and aborted, [nextVersion] returns
    the selection's error followed by ": failed to select valid semver
    spec" and no version; no kind is applied by default. *)
Theorem X4_nextVersion_selection_aborted (env : Env) (c : CLI)
    (cur : Version) (w : World) (i : nat) (err : error) :
  List.length (declaredSpecs (CLI_Option c)) <> 1%nat ->
  promptui_Run env (selectLabel cur) (menuOf (CLI_Option c)) = (i, Some err) ->
  (i < List.length (menuOf (CLI_Option c)))%nat ->
  nextVersion env c (Some cur) w
  = (Done (inl (err ++ ": failed to select valid semver spec")),
     logged (EPrompt (selectLabel cur) (menuOf (CLI_Option c))) w).
Proof. apply nextVersion_selection_aborted. Qed.

Lemma X4_nextVersion_selection_aborted_witness :
  nextVersion (sampleEnv noFlags None (O, Some "^C")) (sampleCLI noFlags)
              (Some v1_2_3) (worldWith ["v1.2.3"])
  = (Done (inl ("^C" ++ ": failed to select valid semver spec")),
     logged (EPrompt (selectLabel v1_2_3) (menuOf noFlags))
            (worldWith ["v1.2.3"])).
Proof.
  apply (X4_nextVersion_selection_aborted
           (sampleEnv noFlags None (O, Some "^C")) (sampleCLI noFlags)
           v1_2_3 (worldWith ["v1.2.3"]) O "^C").
  - discriminate.
  - reflexivity.
  - cbn. lia.
Defined.

(** ** Publishing: further properties *)

Lemma string_app_assoc (a b c : string) : (a ++ b) ++ c = a ++ (b ++ c).
Proof. induction a as [|x a IH]; cbn; [reflexivity|]. now rewrite IH. Qed.

(** A failed lookup ends [PushTag] at once. *)
Lemma PushTag_lookup_failure (env : Env) (c : CLI) (tag : string)
    (w : World) (e : error) :
  Repo_Head env = inl e \/
  (exists head, Repo_Head env = inr head /\
     (Repo_CommitObject env head = inl e \/
      (exists commit, Repo_CommitObject env head = inr commit /\
         (gitconfig_User env = inl e \/
          (exists user, gitconfig_User env = inr user /\
                        gitconfig_Email env = inl e))))) ->
  PushTag env c tag w = (Done (Some e), w).
Proof.
  unfold PushTag.
  intros [H|(head & Hh & [H|(commit & Hc & [H|(user & Hu & H)])])].
  - now rewrite H.
  - now rewrite Hh, H.
  - now rewrite Hh, Hc, H.
  - now rewrite Hh, Hc, Hu, H.
Qed.

(** X5: when HEAD, its commit, the user name or the email cannot be
    obtained, [PushTag] returns that error before anything happens: no
    request, no tag, no output. *)
Theorem X5_PushTag_lookup_failure (env : Env) (c : CLI) (tag : string)
    (w : World) (e : error) :
  Repo_Head env = inl e \/
  (exists head, Repo_Head env = inr head /\
     (Repo_CommitObject env head = inl e \/
      (exists commit, Repo_CommitObject env head = inr commit /\
         (gitconfig_User env = inl e \/
          (exists user, gitconfig_User env = inr user /\
                        gitconfig_Email env = inl e))))) ->
  PushTag env c tag w = (Done (Some e), w).
Proof. apply PushTag_lookup_failure. Qed.

Lemma X5_PushTag_lookup_failure_witness :
  PushTag (mkEnv (fun args => inr (noFlags, args)) (fun _ => None) None
                 (inr "4f2a9c1")
                 (fun _ => inr (mkCommit "Release" 1580000000))
                 (inr "alice") (inl "user.email is not set")
                 (fun _ => None) (fun _ => None) "" (fun _ _ => (O, None)))
          (sampleCLI noFlags) "v1.0.1" (worldWith ["v1.0.0"])
  = (Done (Some "user.email is not set"), worldWith ["v1.0.0"]).
Proof.
  apply X5_PushTag_lookup_failure.
  right. exists "4f2a9c1". split; [reflexivity|].
  right. exists (mkCommit "Release" 1580000000). split; [reflexivity|].
  right. exists "alice". split; reflexivity.
Defined.

(** The whole of [PushTag] once the lookups succeeded. *)
Lemma PushTag_after_lookups (env : Env) (c : CLI) (tag : string) (w : World)
    (head user email : string) (commit : Commit) :
  Repo_Head env = inr head -> Repo_CommitObject env head = inr commit ->
  gitconfig_User env = inr user -> gitconfig_Email env = inr email ->
  PushTag env c tag w
  = if existsb (String.eqb tag) (repo_tags w) then
      (Done (Some "tag already exists"),
       logged (ECreateTag tag head (Commit_Message commit)) w)
    else
      match createTag_fault env tag with
      | Some e =>
          (Done (Some e), logged (ECreateTag tag head (Commit_Message commit)) w)
      | None =>
          let tried := pushTried env (Stdout c) tag
                         (created tag head (Commit_Message commit) w) in
          match Repo_Push env tag with
          | Some e => (Done (Some e), written (Stdout c) pushedLine tried)
          | None =>
              (Done None, written (Stdout c) pushedLine (received tag tried))
          end
      end.
Proof.
  intros Hh Hc Hu He. unfold PushTag. rewrite Hh, Hc, Hu, He.
  unfold bind. rewrite CreateTag_run.
  destruct (existsb (String.eqb tag) (repo_tags w)); [reflexivity|].
  destruct (createTag_fault env tag); [reflexivity|].
  unfold Fprint, Push, bind, emit, pushTried, created, received.
  destruct (Repo_Push env tag); reflexivity.
Qed.

(** X6: with the lookups succeeding, the tag absent and both the creation
    and the push going through, [PushTag] returns no error; the tag is
    created at the HEAD hash with the HEAD commit's message, exactly the
    reference of that tag is pushed to [origin], the tag is then present
    locally and on the remote, and the output is the bump line, the
    transport's progress and the pushed line, in that order. *)
Theorem X6_PushTag_success (env : Env) (c : CLI) (tag : string) (w : World)
    (head user email : string) (commit : Commit) :
  Repo_Head env = inr head -> Repo_CommitObject env head = inr commit ->
  gitconfig_User env = inr user -> gitconfig_Email env = inr email ->
  existsb (String.eqb tag) (repo_tags w) = false ->
  createTag_fault env tag = None -> Repo_Push env tag = None ->
  exists w',
    PushTag env c tag w = (Done None, w') /\
    repo_tags w' = (repo_tags w ++ [tag])%list /\
    remote_tags w' = (remote_tags w ++ [tag])%list /\
    trace w' = (trace w ++ [ECreateTag tag head (Commit_Message commit);
                            EPush "origin"
                              ("refs/tags/" ++ tag ++ ":refs/tags/" ++ tag)])%list /\
    (Stdout c = os_Stdout ->
     os_stderr w' = os_stderr w /\
     os_stdout w' = os_stdout w ++ bumpLine tag ++ Push_progress env
                                ++ pushedLine).
Proof.
  intros Hh Hc Hu He Hex Hf Hp.
  rewrite (PushTag_after_lookups env c tag w head user email commit)
    by assumption.
  rewrite Hex, Hf, Hp. eexists. split; [reflexivity|].
  unfold pushTried, received, created, logged.
  destruct (Stdout c);
    cbn [written os_stdout os_stderr repo_tags remote_tags trace];
    rewrite <- ?app_assoc; repeat split; try discriminate.
  now rewrite !string_app_assoc.
Qed.

Lemma X6_PushTag_success_witness :
  exists w',
    PushTag (sampleEnv patchFlag None (O, None)) (sampleCLI patchFlag)
            "v1.1.2" (worldWith ["v1.1.1"]) = (Done None, w') /\
    repo_tags w' = ["v1.1.1"; "v1.1.2"] /\
    remote_tags w' = ["v1.1.2"] /\
    trace w' = [ECreateTag "v1.1.2" "4f2a9c1" "Release";
                EPush "origin" "refs/tags/v1.1.2:refs/tags/v1.1.2"] /\
    (os_Stdout = os_Stdout ->
     os_stderr w' = "" /\
     os_stdout w' = "" ++ bumpLine "v1.1.2" ++ "" ++ pushedLine).
Proof.
  apply (X6_PushTag_success (sampleEnv patchFlag None (O, None))
           (sampleCLI patchFlag) "v1.1.2" (worldWith ["v1.1.1"])
           "4f2a9c1" "alice" "alice@example.com"
           (mkCommit "Release" 1580000000)); reflexivity.
Defined.

Lemma sameRepo_tagsGrow (a b c : World) :
  sameRepo a b -> tagsGrow b c -> tagsGrow a c.
Proof.
  intros [H1 H2] [[H3 H4]|(t & Ht & H3 & H4)].
  - left. split; congruence.
  - right. exists t. rewrite <- H1, <- H2. auto.
Qed.

Lemma PushTag_tagsGrow (env : Env) (c : CLI) (tag : string) :
  respects tagsGrow (PushTag env c tag).
Proof.
  intros w r w' H.
  destruct (Repo_Head env) as [e|head] eqn:Hh.
  { rewrite (PushTag_lookup_failure env c tag w e) in H by auto.
    inversion H. left. apply sameRepo_refl. }
  destruct (Repo_CommitObject env head) as [e|commit] eqn:Hc.
  { rewrite (PushTag_lookup_failure env c tag w e) in H by eauto.
    inversion H. left. apply sameRepo_refl. }
  destruct (gitconfig_User env) as [e|user] eqn:Hu.
  { rewrite (PushTag_lookup_failure env c tag w e) in H by eauto 8.
    inversion H. left. apply sameRepo_refl. }
  destruct (gitconfig_Email env) as [e|email] eqn:He.
  { rewrite (PushTag_lookup_failure env c tag w e) in H by eauto 10.
    inversion H. left. apply sameRepo_refl. }
  rewrite (PushTag_after_lookups env c tag w head user email commit) in H
    by assumption.
  destruct (existsb (String.eqb tag) (repo_tags w)) eqn:Hex.
  { inversion H. left. apply sameRepo_logged. }
  destruct (createTag_fault env tag).
  { inversion H. left. apply sameRepo_logged. }
  cbv zeta in H. unfold pushTried, received, created, logged in H.
  destruct (Repo_Push env tag); inversion H; right; exists tag;
    (split; [exact Hex|]); destruct (Stdout c); cbn; auto.
Qed.

(** ** The scan: further properties *)

(** X7: when the tags can be enumerated but there is none, or one of them
    is not a version, [currentVersion] panics: it neither skips the tag nor
    returns an error, however many valid tags there are beside it. *)
Theorem X7_currentVersion_panics (env : Env) (c : CLI) (w : World) :
  Repo_Tags env = None ->
  repo_tags w = [] \/ (exists t, In t (repo_tags w) /\ NewVersion t = None) ->
  exists msg w', currentVersion env c w = (Panic msg, w').
Proof.
  intros Ht [He|(t & Hin & Hbad)].
  - unfold currentVersion. rewrite Ht. unfold bind, getTags, liftRes.
    rewrite He. cbn. eauto.
  - eapply currentVersion_nil_slot; eauto.
Qed.

Lemma X7_currentVersion_panics_witness :
  exists msg w',
    currentVersion (sampleEnv noFlags None (O, None)) (sampleCLI noFlags)
                   (worldWith ["v1.0.0"; "v1.1.0"; "latest"; "v1.2.0"])
    = (Panic msg, w').
Proof.
  apply (X7_currentVersion_panics (sampleEnv noFlags None (O, None))
           (sampleCLI noFlags)
           (worldWith ["v1.0.0"; "v1.1.0"; "latest"; "v1.2.0"])).
  - reflexivity.
  - right. exists "latest". split; [simpl; tauto|reflexivity].
Defined.

Lemma sinkV_Permutation (x : Version) (left : list Version) :
  Permutation (sinkV x left) (x :: left).
Proof.
  induction left as [|y left IH]; simpl; [reflexivity|].
  destruct (LessThan x y); [|reflexivity].
  rewrite IH. apply perm_swap.
Qed.

Lemma insertionSortV_Permutation (todo : list Version) : forall left,
  Permutation (insertionSortV left todo) (left ++ todo).
Proof.
  induction todo as [|x todo IH]; intros left; simpl.
  - now rewrite app_nil_r.
  - rewrite IH, sinkV_Permutation. apply Permutation_middle.
Qed.

Lemma StronglySorted_snoc {A : Type} (R : A -> A -> Prop) (l : list A) (a : A) :
  StronglySorted R l -> Forall (fun x => R x a) l ->
  StronglySorted R (l ++ [a]).
Proof.
  induction 1 as [|x l Hs IH Hx]; intros Ha; simpl.
  - repeat constructor.
  - inversion Ha; subst. constructor; [auto|].
    apply Forall_app. split; [exact Hx|]. repeat constructor. assumption.
Qed.

Lemma StronglySorted_rev {A : Type} (R : A -> A -> Prop) (l : list A) :
  StronglySorted R l -> StronglySorted (fun a b => R b a) (rev l).
Proof.
  induction 1 as [|x l Hs IH Hx]; simpl; [constructor|].
  apply StronglySorted_snoc; [exact IH|].
  apply Forall_rev. exact Hx.
Qed.

(** [sort.Sort] on a slice of parsed versions: a rearrangement in
    ascending order. *)
Lemma sort_Sort_spec (vs : list Version) :
  vs <> [] -> Forall versionOK vs ->
  exists init cur,
    sort_Sort (map Some vs) = Done (map Some (init ++ [cur])) /\
    Permutation (init ++ [cur]) vs /\
    StronglySorted (fun a b => 0 <= Compare b a) (init ++ [cur]).
Proof.
  intros Hne Hok. destruct vs as [|x rest]; [congruence|].
  inversion Hok as [|? ? Dx Dr]; subst.
  destruct (insertionSortV_spec rest [x]) as [Hs Hin]; auto.
  { repeat constructor. }
  pose proof (insertionSortV_Permutation rest [x]) as Hp.
  unfold sort_Sort. cbn [map].
  change [Some x] with (map Some [x]). rewrite insertionSort_Some.
  rewrite <- map_rev.
  destruct (insertionSortV [x] rest) as [|cur l] eqn:E.
  { apply Permutation_nil in Hp. discriminate. }
  exists (rev l), cur. cbn [rev]. repeat split.
  - rewrite <- Hp. change (rev l ++ [cur])%list with (rev (cur :: l)).
    symmetry. apply Permutation_rev.
  - change (rev l ++ [cur])%list with (rev (cur :: l)).
    apply (StronglySorted_rev geV). exact Hs.
Qed.

Lemma written_app (out : Writer) (a b : string) (w : World) :
  written out (a ++ b) w = written out b (written out a w).
Proof.
  destruct out; cbn; try reflexivity; now rewrite string_app_assoc.
Qed.

Lemma string_app_nil_r (a : string) : a ++ "" = a.
Proof. induction a as [|x a IH]; cbn; [reflexivity|]. now rewrite IH. Qed.

Lemma written_nil (out : Writer) (w : World) : written out "" w = w.
Proof.
  destruct out, w; cbn; rewrite ?string_app_nil_r; reflexivity.
Qed.

Lemma printTags_listing (out : Writer) (vs : list Version) : forall w,
  printTags out (map Some vs) w = (Done tt, written out (listingLines vs) w).
Proof.
  induction vs as [|v vs IH]; intros w; cbn [map printTags listingLines].
  - now rewrite written_nil.
  - unfold bind, liftRes. cbn [deref]. unfold Fprintln, Fprint.
    rewrite IH. rewrite <- written_app, string_app_assoc.
    destruct vs; reflexivity.
Qed.

Lemma lastElem_snoc (init : list Version) (cur : Version) :
  lastElem (map Some (init ++ [cur])) = Done (Some cur).
Proof.
  unfold lastElem. rewrite <- map_rev, rev_app_distr. reflexivity.
Qed.

(** The scan of a list of versions, in full. *)
Lemma currentVersion_listing (env : Env) (c : CLI) (w : World) :
  Repo_Tags env = None ->
  repo_tags w <> [] ->
  Forall (fun t => NewVersion t <> None) (repo_tags w) ->
  exists init cur,
    currentVersion env c w
    = (Done (inr (Some cur)),
       written (Stdout c)
         ("Tags:" ++ newline ++ listingLines (init ++ [cur]) ++ newline) w) /\
    Permutation (map Some (init ++ [cur])) (map NewVersion (repo_tags w)) /\
    StronglySorted (fun a b => 0 <= Compare b a) (init ++ [cur]).
Proof.
  intros Ht Hne Hall.
  destruct (map_NewVersion_all _ Hall) as (vs & Hm & Hok & Hin).
  assert (Hvs : vs <> []).
  { intros ->. destruct (repo_tags w); [congruence|discriminate]. }
  destruct (sort_Sort_spec vs Hvs Hok) as (init & cur & Hs & Hp & Hsorted).
  exists init, cur. split; [|split].
  - unfold currentVersion. rewrite Ht. unfold bind, getTags, liftRes.
    rewrite Hm, Hs, lastElem_snoc. unfold Fprintln, Fprint.
    rewrite printTags_listing. unfold ret.
    rewrite <- !written_app, !string_app_assoc. reflexivity.
  - rewrite Hm. now apply Permutation_map.
  - exact Hsorted.
Qed.

(** X8: when the tags are enumerated, there are some and all are versions,
    [currentVersion] returns the last of them in ascending order and its
    output is exactly: the heading "Tags:", one line per tag in ascending
    order of [Compare] (every tag once), the last line marked
    "(current version)", and an empty line. *)
Theorem X8_currentVersion_listing (env : Env) (c : CLI) (w : World) :
  Repo_Tags env = None ->
  repo_tags w <> [] ->
  Forall (fun t => NewVersion t <> None) (repo_tags w) ->
  exists init cur,
    currentVersion env c w
    = (Done (inr (Some cur)),
       written (Stdout c)
         ("Tags:" ++ newline ++ listingLines (init ++ [cur]) ++ newline) w) /\
    Permutation (map Some (init ++ [cur])) (map NewVersion (repo_tags w)) /\
    StronglySorted (fun a b => 0 <= Compare b a) (init ++ [cur]).
Proof. apply currentVersion_listing. Qed.

Lemma X8_currentVersion_listing_witness :
  exists init cur,
    currentVersion (sampleEnv noFlags None (O, None)) (sampleCLI noFlags)
                   (worldWith ["v1.10.0"; "v1.2.0"; "v1.9.0-rc.1"])
    = (Done (inr (Some cur)),
       written os_Stdout
         ("Tags:" ++ newline ++ listingLines (init ++ [cur]) ++ newline)
         (worldWith ["v1.10.0"; "v1.2.0"; "v1.9.0-rc.1"])) /\
    Permutation (map Some (init ++ [cur]))
                (map NewVersion ["v1.10.0"; "v1.2.0"; "v1.9.0-rc.1"]) /\
    StronglySorted (fun a b => 0 <= Compare b a) (init ++ [cur]).
Proof.
  apply (X8_currentVersion_listing (sampleEnv noFlags None (O, None))
           (sampleCLI noFlags)
           (worldWith ["v1.10.0"; "v1.2.0"; "v1.9.0-rc.1"])).
  - reflexivity.
  - discriminate.
  - repeat constructor; discriminate.
Defined.

(** ** The run as a whole *)

(** Every outcome of [PushTag]: an error with the references as before, an
    error with the tag created but not received, or no error with the tag
    created and received. *)
Lemma PushTag_outcome (env : Env) (c : CLI) (tag : string) (w w' : World)
    (r : res (option error)) :
  PushTag env c tag w = (r, w') ->
  (exists e, r = Done (Some e) /\ sameRepo w w') \/
  (existsb (String.eqb tag) (repo_tags w) = false /\
   repo_tags w' = (repo_tags w ++ [tag])%list /\
   ((exists e, r = Done (Some e) /\ remote_tags w' = remote_tags w) \/
    (r = Done None /\ remote_tags w' = (remote_tags w ++ [tag])%list))).
Proof.
  intros H.
  destruct (Repo_Head env) as [e|head] eqn:Hh.
  { rewrite (PushTag_lookup_failure env c tag w e) in H by auto.
    inversion H. left. eauto using sameRepo_refl. }
  destruct (Repo_CommitObject env head) as [e|commit] eqn:Hc.
  { rewrite (PushTag_lookup_failure env c tag w e) in H by eauto.
    inversion H. left. eauto using sameRepo_refl. }
  destruct (gitconfig_User env) as [e|user] eqn:Hu.
  { rewrite (PushTag_lookup_failure env c tag w e) in H by eauto 8.
    inversion H. left. eauto using sameRepo_refl. }
  destruct (gitconfig_Email env) as [e|email] eqn:He.
  { rewrite (PushTag_lookup_failure env c tag w e) in H by eauto 10.
    inversion H. left. eauto using sameRepo_refl. }
  rewrite (PushTag_after_lookups env c tag w head user email commit) in H
    by assumption.
  destruct (existsb (String.eqb tag) (repo_tags w)) eqn:Hex.
  { inversion H. left. eauto using sameRepo_logged. }
  destruct (createTag_fault env tag).
  { inversion H. left. eauto using sameRepo_logged. }
  cbv zeta in H. unfold pushTried, received, created, logged in H.
  right. split; [reflexivity|].
  destruct (Repo_Push env tag); inversion H; destruct (Stdout c); cbn;
    split; eauto.
Qed.

Lemma Compare_refl (v : Version) : versionOK v -> Compare v v = 0.
Proof.
  intros D. destruct Compare_comparator as [Ha _].
  specialize (Ha v v D D). lia.
Qed.

Lemma ascending_last_max (init : list Version) (cur : Version) :
  StronglySorted (fun a b => 0 <= Compare b a) (init ++ [cur]) ->
  forall u, In u init -> 0 <= Compare cur u.
Proof.
  induction init as [|x init IH]; intros Hs u Hu; [destruct Hu|].
  cbn in Hs. inversion Hs as [|? ? Hs' Hx]; subst.
  destruct Hu as [<-|Hu]; [|now apply IH].
  rewrite Forall_forall in Hx. apply Hx. apply in_or_app. right. now left.
Qed.

Lemma map_Some_inj {A : Type} (a : list A) : forall b,
  map Some a = map Some b -> a = b.
Proof.
  induction a as [|x a IH]; intros [|y b] E; try discriminate;
    [reflexivity|].
  cbn in E. injection E as E1 E2. subst. f_equal. auto.
Qed.

(** What [currentVersion] found when it returned a version pointer. *)
Lemma currentVersion_returned (env : Env) (c : CLI) (w w' : World)
    (current : option Version) :
  currentVersion env c w = (Done (inr current), w') ->
  exists cur,
    current = Some cur /\
    (exists t, In t (repo_tags w) /\ NewVersion t = Some cur) /\
    (forall t u, In t (repo_tags w) -> NewVersion t = Some u ->
                 0 <= Compare cur u) /\
    Forall (fun t => NewVersion t <> None) (repo_tags w).
Proof.
  intros H.
  destruct (Repo_Tags env) as [e|] eqn:Ht.
  { unfold currentVersion in H. rewrite Ht in H. discriminate. }
  assert (Hall : Forall (fun t => NewVersion t <> None) (repo_tags w)).
  { apply Forall_forall. intros t Hin Hbad.
    destruct (currentVersion_nil_slot env c w t Ht Hin Hbad) as (m & w1 & E).
    congruence. }
  assert (Hne : repo_tags w <> []).
  { intros E. unfold currentVersion in H. rewrite Ht in H.
    unfold bind, getTags, liftRes in H. rewrite E in H. discriminate. }
  destruct (currentVersion_listing env c w Ht Hne Hall)
    as (init & cur & Hrun & Hp & Hs).
  rewrite Hrun in H. inversion H; subst. exists cur.
  destruct (map_NewVersion_all _ Hall) as (vs & Hm & Hok & Hin).
  rewrite Hm in Hp. apply Permutation_map_inv in Hp as (l' & El & Pl).
  apply map_Some_inj in El. subst l'.
  assert (Hmem : forall u, In u vs <-> In u (init ++ [cur])).
  { intros u. split; intros Hu.
    - eapply Permutation_in; [exact Pl|exact Hu].
    - eapply Permutation_in; [symmetry; exact Pl|exact Hu]. }
  split; [reflexivity|]. split; [|split; [|exact Hall]].
  - apply Hin, Hmem, in_or_app. right. now left.
  - intros t u Hit Hu.
    assert (Hu' : In u (init ++ [cur])) by (apply Hmem, Hin; eauto).
    apply in_app_or in Hu' as [Hu'|[<-|[]]].
    + eapply ascending_last_max; eauto.
    + rewrite Compare_refl; [lia|].
      rewrite Forall_forall in Hok. apply Hok, Hmem, in_or_app.
      right. now left.
Qed.

(** A run that returned no error, taken apart. *)
Lemma Run_returned_nil (env : Env) (c : CLI) (args : list string)
    (w w' : World) :
  Run env c args w = (Done None, w') ->
  exists cur k,
    Repo_Tags env = None /\
    Forall (fun t => NewVersion t <> None) (repo_tags w) /\
    (exists t, In t (repo_tags w) /\ NewVersion t = Some cur) /\
    (forall t u, In t (repo_tags w) -> NewVersion t = Some u ->
                 0 <= Compare cur u) /\
    existsb (String.eqb (tagName cur (applySpec k cur))) (repo_tags w) = false /\
    repo_tags w' = (repo_tags w ++ [tagName cur (applySpec k cur)])%list /\
    remote_tags w'
    = (remote_tags w ++ [tagName cur (applySpec k cur)])%list.
Proof.
  unfold Run. destruct (git_PlainOpen env _); [discriminate|].
  unfold bind at 1.
  destruct (currentVersion env _ w) as [[[e|current]|msg] w1] eqn:Ec;
    try discriminate.
  pose proof (respects_currentVersion sameRepo sameRepo_refl sameRepo_trans
                sameRepo_written env _ w _ w1 Ec) as [R1 R1'].
  assert (Ht : Repo_Tags env = None).
  { destruct (Repo_Tags env) eqn:E; [|reflexivity].
    unfold currentVersion in Ec. rewrite E in Ec. discriminate. }
  apply currentVersion_returned in Ec as (cur & -> & Hin & Hmax & Hall).
  unfold bind at 1.
  destruct (nextVersion env _ (Some cur) w1) as [[[e|next]|msg] w2] eqn:En;
    try discriminate.
  pose proof (respects_nextVersion sameRepo sameRepo_refl sameRepo_trans
                sameRepo_logged env _ (Some cur) w1 _ w2 En) as [R2 R2'].
  apply nextVersion_returned_version in En as (cur' & k & Ecur & -> & _).
  injection Ecur as <-.
  unfold bind, liftRes. cbn [deref]. intros H.
  apply PushTag_outcome in H
    as [(e & He & _)|(Hex & Hr & [(e & He & _)|(_ & Hm)])];
    try discriminate.
  exists cur, k. rewrite R2, R1 in Hex, Hr. rewrite R2', R1' in Hm.
  repeat split; auto.
Qed.



(** X10: whatever the outcome of a run (no error, an error or a panic), no
    existing tag reference is removed or changed and at most one tag,
    absent before, is added; the remote receives nothing unless the run
    returns no error, and then only that tag. *)
Theorem X10_Run_tags_only_grow (env : Env) (c : CLI) (args : list string)
    (w w' : World) (r : res (option error)) :
  Run env c args w = (r, w') ->
  tagsGrow w w' /\
  (r <> Done None -> remote_tags w' = remote_tags w).
Proof.
  unfold Run. destruct (git_PlainOpen env _).
  { intros H. inversion H. split; [left; apply sameRepo_refl|reflexivity]. }
  unfold bind at 1.
  destruct (currentVersion env _ w) as [[[e|current]|msg] w1] eqn:Ec;
    pose proof (respects_currentVersion sameRepo sameRepo_refl sameRepo_trans
                  sameRepo_written env _ w _ w1 Ec) as R1;
    try (intros H; inversion H; subst; split;
         [left; exact R1|intros _; apply R1]).
  unfold bind at 1.
  destruct (nextVersion env _ current w1) as [[[e|next]|msg] w2] eqn:En;
    pose proof (respects_nextVersion sameRepo sameRepo_refl sameRepo_trans
                  sameRepo_logged env _ current w1 _ w2 En) as R2;
    pose proof (sameRepo_trans _ _ _ R1 R2) as R12;
    try (intros H; inversion H; subst; split;
         [left; exact R12|intros _; apply R12]).
  unfold bind, liftRes. destruct current as [cur|]; cbn [deref].
  2:{ intros H; inversion H; subst; split;
        [left; exact R12|intros _; apply R12]. }
  intros H. destruct R12 as [Q1 Q2].
  apply PushTag_outcome in H
    as [(e & He & S1 & S2)|(Hex & Hr & [(e & He & Hm)|(He & Hm)])].
  - split; [left; split; congruence|intros _; congruence].
  - split; [|intros _; congruence].
    right. eexists. rewrite <- Q1, <- Q2. eauto.
  - split; [|congruence].
    right. eexists. rewrite <- Q1, <- Q2. eauto.
Qed.

Lemma X10_Run_tags_only_grow_witness :
  let env := sampleEnv patchFlag (Some "authentication required") (O, None) in
  let w := worldWith ["v1.0.0"] in
  tagsGrow w (snd (Run env (sampleCLI patchFlag) [] w)) /\
  (fst (Run env (sampleCLI patchFlag) [] w) <> Done None ->
   remote_tags (snd (Run env (sampleCLI patchFlag) [] w)) = remote_tags w).
Proof.
  apply (X10_Run_tags_only_grow
           (sampleEnv patchFlag (Some "authentication required") (O, None))
           (sampleCLI patchFlag) [] (worldWith ["v1.0.0"])).
  vm_compute. reflexivity.
Defined.





(** ** The published tag read back *)

Lemma allChars_app (p : ascii -> bool) (a b : string) :
  allChars p (a ++ b) = allChars p a && allChars p b.
Proof.
  induction a as [|x a IH]; cbn; [reflexivity|].
  now rewrite IH, andb_assoc.
Qed.

Lemma string_length_app (a b : string) :
  String.length (a ++ b) = (String.length a + String.length b)%nat.
Proof. induction a as [|x a IH]; cbn; [reflexivity|]. now rewrite IH. Qed.

Lemma digitsValue_app (a b : string) : forall acc,
  digitsValue acc (a ++ b)
  = match digitsValue acc a with
    | Some v => digitsValue v b
    | None => None
    end.
Proof.
  induction a as [|x a IH]; intros acc; cbn [append digitsValue];
    [reflexivity|].
  destruct (isDigit x); [apply IH|reflexivity].
Qed.

Lemma digitsValue_digitChar (acc n : Z) :
  digitsValue acc (String (ascii_of_N (Z.to_N (48 + n mod 10))) "")
  = Some (10 * acc + n mod 10).
Proof.
  cbn [digitsValue]. rewrite digitChar_isDigit.
  pose proof (Z.mod_pos_bound n 10 ltac:(lia)).
  rewrite byteOf_ascii_of_N by lia. f_equal. lia.
Qed.

(** The digits written for [n] read back as [n]. *)
Lemma formatDigits_spec (fuel : nat) : forall n acc,
  0 <= n < 10 ^ (Z.of_nat fuel + 1) ->
  exists d,
    formatDigits fuel n acc = d ++ acc /\
    allChars isDigit d = true /\ d <> "" /\
    forall a, digitsValue a d
              = Some (a * 10 ^ Z.of_nat (String.length d) + n).
Proof.
  assert (Hone : forall n acc, 0 <= n < 10 ->
            exists d,
              String (ascii_of_N (Z.to_N (48 + n mod 10))) acc = d ++ acc /\
              allChars isDigit d = true /\ d <> "" /\
              forall a, digitsValue a d
                        = Some (a * 10 ^ Z.of_nat (String.length d) + n)).
  { intros n acc Hn.
    exists (String (ascii_of_N (Z.to_N (48 + n mod 10))) "").
    repeat split.
    - cbn [allChars]. now rewrite digitChar_isDigit.
    - discriminate.
    - intros a. rewrite digitsValue_digitChar.
      rewrite Z.mod_small by lia. cbn [String.length]. f_equal.
      change (10 ^ Z.of_nat 1) with 10. lia. }
  induction fuel as [|fuel IH]; intros n acc Hn; cbn [formatDigits].
  - apply Hone. change (10 ^ (Z.of_nat 0 + 1)) with 10 in Hn. exact Hn.
  - destruct (Z.eqb_spec (n / 10) 0) as [E|E].
    + apply Hone. apply Z.div_small_iff in E; lia.
    + assert (Hq : 0 <= n / 10 < 10 ^ (Z.of_nat fuel + 1)).
      { split; [apply Z.div_pos; lia|].
        apply Z.div_lt_upper_bound; [lia|].
        replace (Z.of_nat (S fuel) + 1) with (Z.succ (Z.of_nat fuel + 1))
          in Hn by lia.
        rewrite Z.pow_succ_r in Hn by lia. lia. }
      destruct (IH (n / 10)
                  (String (ascii_of_N (Z.to_N (48 + n mod 10))) acc) Hq)
        as (d & Hd & Hall & Hne & Hval).
      exists (d ++ String (ascii_of_N (Z.to_N (48 + n mod 10))) "").
      repeat split.
      * rewrite Hd, string_app_assoc. reflexivity.
      * rewrite allChars_app, Hall. cbn [allChars].
        now rewrite digitChar_isDigit.
      * destruct d; [congruence|discriminate].
      * intros a. rewrite digitsValue_app, Hval, digitsValue_digitChar.
        rewrite string_length_app. cbn [String.length].
        rewrite Nat2Z.inj_add, Z.pow_add_r by lia.
        change (10 ^ Z.of_nat 1) with 10. f_equal.
        pose proof (Z.div_mod n 10 ltac:(lia)). lia.
Qed.

Lemma FormatUint_spec (n : Z) :
  0 <= n <= maxUint64 ->
  allChars isDigit (FormatUint n) = true /\ FormatUint n <> "" /\
  ParseUint (FormatUint n) = Some n.
Proof.
  intros Hn. unfold FormatUint.
  destruct (formatDigits_spec 20 n "") as (d & Hd & Hall & Hne & Hval).
  { unfold maxUint64 in Hn. split; [lia|].
    assert (2 ^ 64 < 10 ^ (Z.of_nat 20 + 1)) by reflexivity. lia. }
  rewrite Hd, string_app_nil_r. repeat split; auto.
  unfold ParseUint. destruct d as [|x d]; [congruence|].
  rewrite Hval. replace (0 * _ + n) with n by lia.
  destruct (Z.leb_spec n maxUint64); [reflexivity|lia].
Qed.

Lemma span_digits (d rest : string) :
  allChars isDigit d = true ->
  match rest with
  | String c _ => isDigit c = false
  | EmptyString => True
  end ->
  span isDigit (d ++ rest) = (d, rest).
Proof.
  intros Hd Hr. induction d as [|x d IH]; cbn [append span].
  - destruct rest as [|c r]; [reflexivity|]. cbn [span]. now rewrite Hr.
  - cbn [allChars] in Hd. apply andb_true_iff in Hd as [Hx Hd].
    rewrite Hx, (IH Hd). reflexivity.
Qed.

Lemma matchNumber_digits (d rest : string) :
  allChars isDigit d = true -> d <> "" ->
  match rest with
  | String c _ => isDigit c = false
  | EmptyString => True
  end ->
  matchNumber (d ++ rest) = Some (d, rest).
Proof.
  intros Hd Hne Hr. unfold matchNumber. rewrite span_digits by assumption.
  destruct d; [congruence|reflexivity].
Qed.

(** A plain release text [a.b.c], with or without the "v", parses to its
    three numbers. *)
Lemma NewVersion_release (p : string) (a b c : Z) :
  p = "v" \/ p = "" ->
  inUint64 a -> inUint64 b -> inUint64 c ->
  NewVersion (p ++ FormatUint a ++ "." ++ FormatUint b ++ "." ++ FormatUint c)
  = Some (mkVersion a b c "" ""
            (p ++ FormatUint a ++ "." ++ FormatUint b ++ "." ++ FormatUint c)).
Proof.
  intros Hp Ha Hb Hc.
  destruct (FormatUint_spec a Ha) as (Da & Na & Pa).
  destruct (FormatUint_spec b Hb) as (Db & Nb & Pb).
  destruct (FormatUint_spec c Hc) as (Dc & Nc & Pc).
  assert (Hfind : FindStringSubmatch
            (p ++ FormatUint a ++ "." ++ FormatUint b ++ "." ++ FormatUint c)
            = Some (FormatUint a, "." ++ FormatUint b, "." ++ FormatUint c,
                    "", "")).
  { unfold FindStringSubmatch.
    assert (Hs0 : match p ++ FormatUint a ++ "." ++ FormatUint b ++ "."
                          ++ FormatUint c with
                  | String x r => if Ascii.eqb x "v" then r
                                  else p ++ FormatUint a ++ "." ++ FormatUint b
                                         ++ "." ++ FormatUint c
                  | EmptyString => p ++ FormatUint a ++ "." ++ FormatUint b
                                     ++ "." ++ FormatUint c
                  end
                  = FormatUint a ++ "." ++ FormatUint b ++ "." ++ FormatUint c).
    { destruct Hp as [->| ->]; [reflexivity|]. cbn [append].
      destruct (FormatUint_head a) as (x & r & E & Hx). rewrite E.
      cbn [append]. now rewrite (digit_not_v x Hx). }
    rewrite Hs0.
    rewrite (matchNumber_digits (FormatUint a)) by (auto; reflexivity).
    unfold matchDotNumber. cbn [append]. cbn [Ascii.eqb Bool.eqb].
    rewrite (matchNumber_digits (FormatUint b)) by (auto; reflexivity).
    cbn [Ascii.eqb Bool.eqb].
    rewrite <- (string_app_nil_r (FormatUint c)) at 1.
    rewrite (matchNumber_digits (FormatUint c) "") by auto.
    reflexivity. }
  unfold NewVersion. rewrite Hfind, Pa.
  cbn [append String.eqb trimDot Ascii.eqb Bool.eqb].
  rewrite Pb, Pc. reflexivity.
Qed.

Lemma wrap64_inUint64 (z : Z) : inUint64 (wrap64 z).
Proof.
  unfold inUint64, wrap64, maxUint64.
  pose proof (Z.mod_pos_bound z (2 ^ 64) ltac:(lia)). lia.
Qed.

Lemma originalVPrefix_cases (v : Version) :
  (originalVPrefix v = "v" \/ originalVPrefix v = "") /\
  (if HasPrefix (Original v) Prefix then Prefix else "") = originalVPrefix v.
Proof.
  rewrite HasPrefix_v. unfold originalVPrefix, Original, Prefix.
  destruct (original v) as [|x r]; [auto|].
  destruct (Ascii.eqb x "v"); auto.
Qed.

(** The tag computed in [Run] is the original text of the bumped
    version. *)
Lemma tagName_Original (k : Spec) (cur : Version) :
  tagName cur (applySpec k cur) = Original (applySpec k cur).
Proof.
  assert (H : forall n, tagName cur (withOriginal cur n)
                        = Original (withOriginal cur n)).
  { intros n. unfold tagName, Original, withOriginal. cbn [original].
    destruct (originalVPrefix_cases cur) as [_ E].
    unfold Original in E. rewrite <- E.
    destruct (HasPrefix (original cur) Prefix); reflexivity. }
  destruct k; unfold applySpec, IncMajor, IncMinor, IncPatch;
    try destruct (negb _); apply H.
Qed.

(** Reading the published tag back gives the bumped version. *)
Lemma NewVersion_tagName (k : Spec) (cur : Version) :
  inUint64 (major cur) -> inUint64 (minor cur) -> inUint64 (patch cur) ->
  NewVersion (tagName cur (applySpec k cur)) = Some (applySpec k cur).
Proof.
  intros Ha Hb Hc. rewrite tagName_Original.
  assert (H0 : inUint64 0) by (unfold inUint64, maxUint64; lia).
  assert (H : forall a b c,
             inUint64 a -> inUint64 b -> inUint64 c ->
             NewVersion (Original (withOriginal cur
                                     (mkVersion a b c "" "" (original cur))))
             = Some (withOriginal cur (mkVersion a b c "" "" (original cur)))).
  { intros a b c Ia Ib Ic. unfold Original, withOriginal.
    cbn [original major minor patch pre metadata]. unfold Version_String.
    cbn [major minor patch pre metadata String.eqb].
    destruct (originalVPrefix_cases cur) as [Hp _].
    cbn [append]. rewrite !string_app_nil_r.
    now apply NewVersion_release. }
  destruct k; unfold applySpec, IncMajor, IncMinor, IncPatch;
    try destruct (negb _); apply H; auto using wrap64_inUint64.
Qed.

(** X13: the published tag reads back as the bumped version. For a current
    version parsed from a tag and any kind, the tag name computed in [Run]
    is the original text of the bumped version, and [NewVersion] of that
    name is the bumped version itself: the next scan will see this
    release. *)
Theorem X13_published_tag_round_trip (t : string) (cur : Version) (k : Spec) :
  NewVersion t = Some cur ->
  tagName cur (applySpec k cur) = Original (applySpec k cur) /\
  NewVersion (tagName cur (applySpec k cur)) = Some (applySpec k cur).
Proof.
  intros H. apply NewVersion_spec in H as (_ & _ & Ha & Hb & Hc).
  split; [apply tagName_Original|now apply NewVersion_tagName].
Qed.

Lemma X13_published_tag_round_trip_witness :
  tagName v1_2_3_beta (applySpec Minor v1_2_3_beta)
    = Original (applySpec Minor v1_2_3_beta) /\
  NewVersion (tagName v1_2_3_beta (applySpec Minor v1_2_3_beta))
    = Some (applySpec Minor v1_2_3_beta).
Proof.
  apply (X13_published_tag_round_trip "1.2.3-beta" v1_2_3_beta Minor).
  reflexivity.
Defined.

(** ** The bumped version among the existing ones *)

Lemma applySpec_versionOK (k : Spec) (v : Version) : versionOK (applySpec k v).
Proof.
  unfold versionOK.
  destruct k; unfold applySpec, IncMajor, IncMinor, IncPatch;
    try destruct (negb _); cbn; apply preOK_empty.
Qed.

Lemma compareSegment_refl (z : Z) : compareSegment z z = 0.
Proof. unfold compareSegment. now rewrite Z.ltb_irrefl. Qed.

Lemma compareSegment_succ (z : Z) :
  0 <= z < maxUint64 -> compareSegment (wrap64 (z + 1)) z = 1.
Proof.
  intros H. rewrite wrap64_succ by exact H. unfold compareSegment.
  destruct (Z.ltb_spec (z + 1) z); [lia|].
  destruct (Z.ltb_spec z (z + 1)); [reflexivity|lia].
Qed.

(** A bump that does not wrap is above the version it starts from. *)
Lemma Compare_applySpec (k : Spec) (v : Version) :
  0 <= segment k v < maxUint64 -> Compare (applySpec k v) v = 1.
Proof.
  intros H. rewrite Compare_lex.
  destruct k; cbn [segment] in H;
    unfold applySpec, IncMajor, IncMinor, IncPatch.
  - cbn [withOriginal major]. now rewrite compareSegment_succ.
  - cbn [withOriginal major minor].
    now rewrite compareSegment_refl, compareSegment_succ.
  - destruct (String.eqb_spec (pre v) "") as [E|E];
      cbn [negb withOriginal major minor patch pre];
      rewrite !compareSegment_refl; cbn [Z.eqb].
    + now rewrite compareSegment_succ.
    + unfold comparePre. cbn [String.eqb andb].
      destruct (String.eqb_spec (pre v) ""); [contradiction|reflexivity].
Qed.

Lemma bump_above_all (cur : Version) (k : Spec) (u : Version) :
  versionOK cur -> versionOK u ->
  0 <= segment k cur < maxUint64 ->
  0 <= Compare cur u -> 0 < Compare (applySpec k cur) u.
Proof.
  intros Dc Du Hseg Hge.
  pose proof (applySpec_versionOK k cur) as Dn.
  pose proof (Compare_applySpec k cur Hseg) as Hn.
  destruct Compare_comparator as [Ha Ht].
  assert (L : Compare u (applySpec k cur) < 0).
  { apply (comparator_le_lt versionOK Compare Compare_comparator u cur); auto.
    - rewrite Ha by auto. lia.
    - rewrite Ha by auto. lia. }
  rewrite Ha by auto. lia.
Qed.

(** X14: the bumped version is strictly above every existing one. When
    [currentVersion] returned [cur] and the segment raised by the kind [k]
    is below 2^64-1, [Compare] places the bump of [cur] above the version
    of every tag of the repository. *)
Theorem X14_bump_above_every_tag (env : Env) (c : CLI) (w w' : World)
    (cur : Version) (k : Spec) :
  currentVersion env c w = (Done (inr (Some cur)), w') ->
  segment k cur < maxUint64 ->
  forall t u, In t (repo_tags w) -> NewVersion t = Some u ->
              0 < Compare (applySpec k cur) u.
Proof.
  intros Hc Hseg t u Hin Hu.
  apply currentVersion_returned in Hc
    as (cur' & Ecur & (t0 & Ht0 & Hp0) & Hmax & _).
  injection Ecur as <-.
  pose proof (NewVersion_spec _ _ Hp0) as (Dc & _ & Ra & Rb & Rc).
  pose proof (NewVersion_spec _ _ Hu) as (Du & _).
  apply bump_above_all; eauto.
  split; [|exact Hseg]. unfold inUint64 in *. destruct k; cbn [segment]; lia.
Qed.

Lemma X14_bump_above_every_tag_witness :
  0 < Compare (applySpec Patch (mkVersion 1 10 0 "" "" "v1.10.0"))
              (mkVersion 1 9 0 "rc.1" "" "v1.9.0-rc.1").
Proof.
  apply (X14_bump_above_every_tag (sampleEnv noFlags None (O, None))
           (sampleCLI noFlags)
           (worldWith ["v1.10.0"; "v1.2.0"; "v1.9.0-rc.1"])
           (snd (currentVersion (sampleEnv noFlags None (O, None))
                   (sampleCLI noFlags)
                   (worldWith ["v1.10.0"; "v1.2.0"; "v1.9.0-rc.1"])))
           (mkVersion 1 10 0 "" "" "v1.10.0") Patch
           ltac:(vm_compute; reflexivity) ltac:(vm_compute; reflexivity)
           "v1.9.0-rc.1").
  - simpl. tauto.
  - reflexivity.
Defined.

(** X15: after a run that returned no error, the next scan of the
    repository reports the tag just published as the current version,
    provided no segment of an existing version is at 2^64-1. *)
Theorem X15_next_scan_reports_published_tag (env : Env) (c c2 : CLI)
    (args : list string) (w w' : World) :
  Run env c args w = (Done None, w') ->
  (forall t u, In t (repo_tags w) -> NewVersion t = Some u ->
               major u < maxUint64 /\ minor u < maxUint64 /\
               patch u < maxUint64) ->
  exists newtag cur2 w'',
    repo_tags w' = (repo_tags w ++ [newtag])%list /\
    currentVersion env c2 w' = (Done (inr (Some cur2)), w'') /\
    Original cur2 = newtag.
Proof.
  intros Hrun Hlim.
  destruct (Run_returned_nil env c args w w' Hrun)
    as (cur & k & Ht & Hall & (t0 & Ht0 & Hp0) & Hmax & _ & Hr & _).
  pose proof (NewVersion_spec _ _ Hp0) as (Dc & _ & Ra & Rb & Rc).
  pose proof (NewVersion_tagName k cur Ra Rb Rc) as Hnew.
  set (tag := tagName cur (applySpec k cur)) in *.
  assert (Hall' : Forall (fun t => NewVersion t <> None) (repo_tags w')).
  { rewrite Hr. apply Forall_app. split; [exact Hall|].
    repeat constructor. congruence. }
  assert (Hne : repo_tags w' <> []).
  { rewrite Hr. destruct (repo_tags w); discriminate. }
  destruct (currentVersion_listing env c2 w' Ht Hne Hall')
    as (init & cur2 & Hscan & _ & _).
  exists tag, cur2. eexists. split; [exact Hr|]. split; [exact Hscan|].
  apply currentVersion_returned in Hscan
    as (cur2' & E2 & (t2 & Hin2 & Hp2) & Hmax2 & _).
  injection E2 as <-.
  rewrite Hr in Hin2. apply in_app_or in Hin2 as [Hold|[<-|[]]].
  - exfalso.
    assert (Hseg : 0 <= segment k cur < maxUint64).
    { destruct (Hlim _ _ Ht0 Hp0) as (La & Lb & Lc).
      unfold inUint64 in *. destruct k; cbn [segment]; lia. }
    pose proof (NewVersion_spec _ _ Hp2) as (D2 & _).
    pose proof (bump_above_all cur k cur2 Dc D2 Hseg (Hmax _ _ Hold Hp2))
      as Habove.
    assert (Hge : 0 <= Compare cur2 (applySpec k cur)).
    { apply (Hmax2 tag); [rewrite Hr; apply in_or_app; right; now left|].
      exact Hnew. }
    destruct Compare_comparator as [Ha _].
    rewrite (Ha (applySpec k cur) cur2) in Habove
      by (auto using applySpec_versionOK).
    lia.
  - rewrite Hnew in Hp2. injection Hp2 as <-.
    symmetry. apply tagName_Original.
Qed.

Lemma X15_next_scan_reports_published_tag_witness :
  let env := sampleEnv patchFlag None (O, None) in
  let w := worldWith ["v1.0.0"; "v1.1.0"] in
  exists newtag cur2 w'',
    repo_tags (snd (Run env (sampleCLI patchFlag) [] w))
    = (repo_tags w ++ [newtag])%list /\
    currentVersion env (sampleCLI noFlags)
                   (snd (Run env (sampleCLI patchFlag) [] w))
    = (Done (inr (Some cur2)), w'') /\
    Original cur2 = newtag.
Proof.
  apply (X15_next_scan_reports_published_tag
           (sampleEnv patchFlag None (O, None)) (sampleCLI patchFlag)
           (sampleCLI noFlags) [] (worldWith ["v1.0.0"; "v1.1.0"])).
  - vm_compute. reflexivity.
  - intros t u [<-|[<-|[]]] H; vm_compute in H; injection H as <-;
      vm_compute; repeat split.
Defined.

(** X16: over the versions parsed from tags, the order that the scan sorts
    by is consistent: comparing two of them one way is the opposite of
    comparing them the other way, a version compares equal to itself, and
    "not above" is transitive. *)
Theorem X16_parsed_versions_ordered (ta tb tc : string) (a b c : Version) :
  NewVersion ta = Some a -> NewVersion tb = Some b -> NewVersion tc = Some c ->
  Compare a b = - Compare b a /\
  Compare a a = 0 /\
  (LessThan a b = true -> LessThan b a = false) /\
  (Compare a b <= 0 -> Compare b c <= 0 -> Compare a c <= 0).
Proof.
  intros Ha Hb Hc.
  pose proof (NewVersion_spec _ _ Ha) as (Da & _).
  pose proof (NewVersion_spec _ _ Hb) as (Db & _).
  pose proof (NewVersion_spec _ _ Hc) as (Dc & _).
  destruct Compare_comparator as [Hanti Htrans].
  split; [now apply Hanti|]. split; [now apply Compare_refl|]. split.
  - unfold LessThan. rewrite (Hanti b a) by auto.
    intros H. apply Z.ltb_lt in H. apply Z.ltb_ge. lia.
  - now apply Htrans.
Qed.

Lemma X16_parsed_versions_ordered_witness :
  Compare (mkVersion 1 9 0 "rc.1" "" "v1.9.0-rc.1")
          (mkVersion 1 9 0 "rc.2" "" "v1.9.0-rc.2")
  = - Compare (mkVersion 1 9 0 "rc.2" "" "v1.9.0-rc.2")
              (mkVersion 1 9 0 "rc.1" "" "v1.9.0-rc.1") /\
  Compare (mkVersion 1 9 0 "rc.1" "" "v1.9.0-rc.1")
          (mkVersion 1 9 0 "rc.1" "" "v1.9.0-rc.1") = 0 /\
  (LessThan (mkVersion 1 9 0 "rc.1" "" "v1.9.0-rc.1")
            (mkVersion 1 9 0 "rc.2" "" "v1.9.0-rc.2") = true ->
   LessThan (mkVersion 1 9 0 "rc.2" "" "v1.9.0-rc.2")
            (mkVersion 1 9 0 "rc.1" "" "v1.9.0-rc.1") = false) /\
  (Compare (mkVersion 1 9 0 "rc.1" "" "v1.9.0-rc.1")
           (mkVersion 1 9 0 "rc.2" "" "v1.9.0-rc.2") <= 0 ->
   Compare (mkVersion 1 9 0 "rc.2" "" "v1.9.0-rc.2")
           (mkVersion 1 9 0 "" "" "v1.9.0") <= 0 ->
   Compare (mkVersion 1 9 0 "rc.1" "" "v1.9.0-rc.1")
           (mkVersion 1 9 0 "" "" "v1.9.0") <= 0).
Proof.
  apply (X16_parsed_versions_ordered "v1.9.0-rc.1" "v1.9.0-rc.2" "v1.9.0");
    reflexivity.
Defined.

(** X17: when the scan found the current version, the kind has to be
    asked for (no flag, or several) and the selection is aborted, the run
    stops there: it returns the selection's error followed by
    ": failed to select valid semver spec", and after the listing the only
    request made is the menu; no tag is created and nothing is pushed. *)
Theorem X17_Run_selection_aborted (env : Env) (c : CLI) (args : list string)
    (w w1 : World) (cur : Version) (i : nat) (err : error) :
  git_PlainOpen env (workDir args) = None ->
  currentVersion env (cliInRun c args) w = (Done (inr (Some cur)), w1) ->
  List.length (declaredSpecs (CLI_Option c)) <> 1%nat ->
  promptui_Run env (selectLabel cur) (menuOf (CLI_Option c)) = (i, Some err) ->
  (i < List.length (menuOf (CLI_Option c)))%nat ->
  Run env c args w
  = (Done (Some (err ++ ": failed to select valid semver spec")),
     logged (EPrompt (selectLabel cur) (menuOf (CLI_Option c))) w1) /\
  repo_tags w1 = repo_tags w /\ remote_tags w1 = remote_tags w /\
  trace w1 = trace w.
Proof.
  intros Ho Hc Hl Hp Hi. split.
  - unfold Run. fold (workDir args). rewrite Ho.
    assert (E : mkCLI
                  (CLI_Option (if Option_Quiet (CLI_Option c)
                               then mkCLI (CLI_Option c) ioutil_Discard
                                          ioutil_Discard (Repo c)
                               else c))
                  (Stdout (if Option_Quiet (CLI_Option c)
                           then mkCLI (CLI_Option c) ioutil_Discard
                                      ioutil_Discard (Repo c)
                           else c))
                  (Stderr (if Option_Quiet (CLI_Option c)
                           then mkCLI (CLI_Option c) ioutil_Discard
                                      ioutil_Discard (Repo c)
                           else c))
                  (Some (workDir args)) = cliInRun c args).
    { unfold cliInRun. destruct (Option_Quiet (CLI_Option c)); reflexivity. }
    rewrite E. unfold bind at 1. rewrite Hc. unfold bind at 1.
    rewrite (nextVersion_selection_aborted env (cliInRun c args) cur w1 i err); auto.
  - destruct (respects_currentVersion readOnly readOnly_refl readOnly_trans
                readOnly_written env _ w _ w1 Hc) as [[H1 H2] H3].
    auto.
Qed.

Lemma X17_Run_selection_aborted_witness :
  let env := sampleEnv noFlags None (O, Some "^C") in
  let w := worldWith ["v1.0.0"] in
  let w1 := snd (currentVersion env (cliInRun (sampleCLI noFlags) []) w) in
  Run env (sampleCLI noFlags) [] w
  = (Done (Some ("^C" ++ ": failed to select valid semver spec")),
     logged (EPrompt (selectLabel (mkVersion 1 0 0 "" "" "v1.0.0"))
                     (menuOf noFlags)) w1) /\
  repo_tags w1 = repo_tags w /\ remote_tags w1 = remote_tags w /\
  trace w1 = trace w.
Proof.
  apply (X17_Run_selection_aborted (sampleEnv noFlags None (O, Some "^C"))
           (sampleCLI noFlags) [] (worldWith ["v1.0.0"]) _
           (mkVersion 1 0 0 "" "" "v1.0.0") O "^C").
  - reflexivity.
  - vm_compute. reflexivity.
  - discriminate.
  - reflexivity.
  - cbn. lia.
Defined.
